(** * OpenVINO notebooks: a verification development

    The notebooks under verification are thin application code around an
    inference runtime:

    - [210-ct-scan-live-inference]: device selection, data preparation,
      the sorted frame listing and the call of [show_live_inference];
    - [215-text-image-superresolution]: [convert_result_to_image] and the
      preprocessing cell;
    - [002-openvino-api]: the N,C,H,W preprocessing expression.

    Each module below embeds one of these pieces and states its properties. *)

From stdpp Require Import gmap strings list sorting pretty.
From Stdlib Require Import ZArith QArith Qround Qminmax Lia OrdersEx.

#[local] Close Scope Q_scope.
#[local] Open Scope string_scope.
#[local] Open Scope list_scope.

(** ** Device selection (both cells of the live-inference notebook) *)

Module Device.

(** Python's [x in lst] on a list: a left-to-right scan with [==]. *)
Fixpoint contains (x : string) (lst : list string) : bool :=
  match lst with
  | [] => false
  | y :: rest => if String.eqb x y then true else contains x rest
  end.

(** [device = "MULTI:CPU,GPU" if "GPU" in ie.available_devices else "CPU"] *)
Definition select_device (available_devices : list string) : string :=
  if contains "GPU" available_devices then "MULTI:CPU,GPU" else "CPU".

(** A device string names the GPU when it is the GPU itself or a MULTI
    list with the GPU in it; the two branches of [select_device] are
    classified by evaluation. *)
Definition uses_gpu (device : string) : bool :=
  String.eqb device "GPU" || String.eqb device "MULTI:CPU,GPU".

Lemma contains_elem_of (x : string) (lst : list string) :
  contains x lst = true ↔ x ∈ lst.
Proof.
  induction lst as [|y rest IH]; simpl.
  - split; [discriminate | intros H; inversion H].
  - destruct (String.eqb_spec x y) as [->|Hne].
    + split; [intros _; left | reflexivity].
    + rewrite IH, elem_of_cons. split; [now right | now intros [?|?]].
Qed.

(** C5. The selected device is "MULTI:CPU,GPU" exactly when "GPU" is one of
    the available devices and is "CPU" otherwise; hence a device that uses
    the GPU is selected only when the GPU is available. *)
Theorem select_device_spec (available_devices : list string) :
  (select_device available_devices = "MULTI:CPU,GPU" ↔ "GPU" ∈ available_devices)
  ∧ ("GPU" ∉ available_devices ↔ select_device available_devices = "CPU")
  ∧ (uses_gpu (select_device available_devices) = true ↔ "GPU" ∈ available_devices).
Proof.
  unfold select_device.
  destruct (contains "GPU" available_devices) eqn:E.
  - apply contains_elem_of in E. repeat split; auto; try discriminate.
    intros Hn; contradiction.
  - assert (Hn : "GPU" ∉ available_devices).
    { intros Hin. apply contains_elem_of in Hin. congruence. }
    repeat split; auto; try discriminate; intros; contradiction.
Qed.

Example select_device_cpu_only : select_device ["CPU"] = "CPU".
Proof. reflexivity. Qed.

Example select_device_with_gpu : select_device ["CPU"; "GPU"] = "MULTI:CPU,GPU".
Proof. reflexivity. Qed.

(** Membership is by equality of the whole name: an enumerated device
    such as "GPU.0" does not count as "GPU". *)
Example select_device_enumerated_gpu : select_device ["CPU"; "GPU.0"; "GPU.1"] = "CPU".
Proof. reflexivity. Qed.

End Device.

(** ** The frame source: [image_paths = sorted(case_path.glob("imaging_frames/*jpg"))] *)

Module FrameSource.

(** A [pathlib] path is compared through its tuple of parts, so a path is
    modelled as the list of its parts. *)
Abbreviation path := (list string).

(** Python's [str.__lt__]: lexicographic on code points. *)
Definition str_lt (a b : string) : bool := String.ltb a b.

(** Python's list comparison, which [PurePath.__lt__] applies to the parts:
    find the first position where the two lists differ, compare there; a
    proper prefix is smaller. *)
Fixpoint path_lt (p q : path) : bool :=
  match p, q with
  | [], [] => false
  | [], _ :: _ => true
  | _ :: _, [] => false
  | a :: p', b :: q' => if String.eqb a b then path_lt p' q' else str_lt a b
  end.

(** [fnmatch] of a name against the pattern [*jpg]: the name ends in "jpg". *)
Definition ends_with (suffix name : string) : bool :=
  let n := String.length name in
  let m := String.length suffix in
  (m <=? n)%nat && String.eqb (String.substring (n - m) m name) suffix.

(** [case_path.glob("imaging_frames/*jpg")] over the listing of the directory
    [case_path/imaging_frames] (the names in the order the file system
    yields them; empty when the directory does not exist). *)
Definition glob_imaging_frames (case_path : path) (listing : list string) : list path :=
  map (λ name, case_path ++ ["imaging_frames"; name])
      (filter (λ name, ends_with "jpg" name = true) listing).

(** [sorted]: a stable sort that compares with [<] only. An element is
    inserted in front of the first element that is not smaller than it. *)
Fixpoint insert_sorted (x : path) (l : list path) : list path :=
  match l with
  | [] => [x]
  | y :: l' => if path_lt y x then y :: insert_sorted x l' else x :: y :: l'
  end.

Fixpoint sorted (l : list path) : list path :=
  match l with
  | [] => []
  | x :: l' => insert_sorted x (sorted l')
  end.

Definition image_paths (case_path : path) (listing : list string) : list path :=
  sorted (glob_imaging_frames case_path listing).

(** The Frame with index [i] is read from the [i]-th path. *)
Definition frame_path (paths : list path) (i : nat) : option path := paths !! i.

(** Non-decreasing order of paths. *)
Definition path_le (p q : path) : Prop := path_lt p q = true ∨ p = q.

Lemma str_lt_compare (a b : string) : str_lt a b = true ↔ String_as_OT.lt a b.
Proof.
  unfold str_lt, String.ltb, String_as_OT.lt.
  change (String_as_OT.compare a b) with (String.compare a b).
  destruct (String.compare a b); split; congruence.
Qed.

Lemma str_lt_irrefl (a : string) : str_lt a a = false.
Proof.
  destruct (str_lt a a) eqn:E; [|reflexivity].
  apply str_lt_compare in E.
  exfalso. exact (StrictOrder_Irreflexive a E).
Qed.

Lemma str_lt_trans (a b c : string) :
  str_lt a b = true → str_lt b c = true → str_lt a c = true.
Proof.
  rewrite !str_lt_compare. apply StrictOrder_Transitive.
Qed.

Lemma str_lt_total (a b : string) :
  str_lt a b = false → a ≠ b → str_lt b a = true.
Proof.
  unfold str_lt, String.ltb. rewrite (String.compare_antisym b a).
  destruct (String.compare a b) eqn:E; simpl; try discriminate; try reflexivity.
  intros _ Hne. apply String.compare_eq_iff in E. contradiction.
Qed.

Lemma path_lt_irrefl (p : path) : path_lt p p = false.
Proof.
  induction p as [|a p IH]; simpl; [reflexivity|].
  rewrite String.eqb_refl. exact IH.
Qed.

Lemma path_lt_trans (p q r : path) :
  path_lt p q = true → path_lt q r = true → path_lt p r = true.
Proof.
  revert q r; induction p as [|a p IH]; intros [|b q] [|c r]; simpl;
    try discriminate; try reflexivity.
  destruct (String.eqb_spec a b) as [->|Hab].
  - destruct (String.eqb_spec b c) as [->|Hbc]; [apply IH | auto].
  - destruct (String.eqb_spec b c) as [->|Hbc].
    + rewrite (proj2 (String.eqb_neq a c) Hab). auto.
    + intros H1 H2. pose proof (str_lt_trans _ _ _ H1 H2) as H3.
      destruct (String.eqb_spec a c) as [->|Hac]; [|exact H3].
      rewrite str_lt_irrefl in H3. discriminate.
Qed.

Lemma path_lt_total (p q : path) : path_lt p q = false → p ≠ q → path_lt q p = true.
Proof.
  revert q; induction p as [|a p IH]; intros [|b q]; simpl;
    try discriminate; try reflexivity; try congruence.
  rewrite (String.eqb_sym b a).
  destruct (String.eqb_spec a b) as [->|Hab].
  - intros H Hne. apply IH; [exact H | congruence].
  - intros H _. apply str_lt_total; assumption.
Qed.

Lemma path_lt_asym (p q : path) : path_lt p q = true → path_lt q p = false.
Proof.
  intros H. destruct (path_lt q p) eqn:E; [|reflexivity].
  pose proof (path_lt_trans _ _ _ H E) as Hpp.
  rewrite path_lt_irrefl in Hpp. discriminate.
Qed.

Lemma not_path_lt_le (p q : path) : path_lt q p = false → path_le p q.
Proof.
  intros H. destruct (decide (p = q)) as [->|Hne]; [right; reflexivity|].
  left. apply path_lt_total; [exact H | congruence].
Qed.

#[local] Instance path_le_trans : Transitive path_le.
Proof.
  intros p q r [H1| ->] [H2| ->]; unfold path_le; eauto using path_lt_trans.
Qed.

(** Paths in one directory are ordered as their file names are. *)
Lemma path_lt_same_parent (parent : path) (a b : string) :
  path_lt (parent ++ [a]) (parent ++ [b]) = str_lt a b.
Proof.
  induction parent as [|d parent IH]; simpl.
  - destruct (String.eqb_spec a b) as [->|Hab]; [|reflexivity].
    now rewrite str_lt_irrefl.
  - rewrite String.eqb_refl. exact IH.
Qed.

Lemma insert_sorted_perm (x : path) (l : list path) : insert_sorted x l ≡ₚ x :: l.
Proof.
  induction l as [|y l IH]; simpl; [reflexivity|].
  destruct (path_lt y x); [|reflexivity].
  rewrite IH. apply Permutation_swap.
Qed.

Lemma sorted_perm (l : list path) : sorted l ≡ₚ l.
Proof.
  induction l as [|x l IH]; simpl; [reflexivity|].
  rewrite insert_sorted_perm. now constructor.
Qed.

Lemma insert_sorted_HdRel (a x : path) (l : list path) :
  path_le a x → HdRel path_le a l → HdRel path_le a (insert_sorted x l).
Proof.
  intros Hax Hal. destruct l as [|y l]; simpl; [now constructor|].
  inversion_clear Hal. destruct (path_lt y x); now constructor.
Qed.

Lemma insert_sorted_Sorted (x : path) (l : list path) :
  Sorted path_le l → Sorted path_le (insert_sorted x l).
Proof.
  induction 1 as [|y l Hl IH Hy]; simpl; [repeat constructor|].
  destruct (path_lt y x) eqn:E.
  - constructor; [exact IH|].
    apply insert_sorted_HdRel; [now left | exact Hy].
  - constructor; [now constructor|].
    constructor. now apply not_path_lt_le.
Qed.

Lemma sorted_Sorted (l : list path) : Sorted path_le (sorted l).
Proof.
  induction l as [|x l IH]; simpl; [constructor|].
  now apply insert_sorted_Sorted.
Qed.

Lemma StronglySorted_lookup (l : list path) (i j : nat) (p q : path) :
  StronglySorted path_le l → (i < j)%nat → l !! i = Some p → l !! j = Some q →
  path_le p q.
Proof.
  intros Hs; revert i j; induction Hs as [|x l Hs IH Hall]; intros i j Hij Hi Hj.
  - now rewrite lookup_nil in Hi.
  - destruct j as [|j]; [lia|]. simpl in Hj.
    destruct i as [|i]; simpl in Hi.
    + injection Hi as <-. rewrite Forall_forall in Hall.
      apply Hall. eapply list_elem_of_lookup_2, Hj.
    + apply (IH i j); [lia | assumption..].
Qed.

(** C8. [image_paths] is a permutation of the files the glob found, arranged
    in non-decreasing order of path, and Frame index [i] is the [i]-th path
    of that order: a Frame with a smaller index never has a larger path. *)
Theorem image_paths_sorted_permutation (case_path : path) (listing : list string) :
  image_paths case_path listing ≡ₚ glob_imaging_frames case_path listing
  ∧ StronglySorted path_le (image_paths case_path listing)
  ∧ (∀ (i j : nat) (p q : path),
        (i < j)%nat →
        frame_path (image_paths case_path listing) i = Some p →
        frame_path (image_paths case_path listing) j = Some q →
        path_le p q).
Proof.
  unfold image_paths, frame_path.
  pose proof (sorted_Sorted (glob_imaging_frames case_path listing)) as Hs.
  apply Sorted_StronglySorted in Hs; [|exact path_le_trans].
  split; [apply sorted_perm|]. split; [exact Hs|].
  intros i j p q. now apply StronglySorted_lookup.
Qed.

Example image_paths_example :
  image_paths ["kits19_frames_1"; "case_00117"]
              ["0002.jpg"; "notes.txt"; "0010.jpg"; "0001.jpg"]
  = [ ["kits19_frames_1"; "case_00117"; "imaging_frames"; "0001.jpg"];
      ["kits19_frames_1"; "case_00117"; "imaging_frames"; "0002.jpg"];
      ["kits19_frames_1"; "case_00117"; "imaging_frames"; "0010.jpg"] ].
Proof. reflexivity. Qed.

(** *** More on the frame listing *)

Lemma substring_all (s : string) : String.substring 0 (String.length s) s = s.
Proof. induction s as [|c s IH]; simpl; [reflexivity | now rewrite IH]. Qed.

Lemma substring_append_suffix (pre suf : string) :
  String.substring (String.length pre) (String.length suf) (pre +:+ suf) = suf.
Proof.
  induction pre as [|c pre IH]; simpl; [apply substring_all | exact IH].
Qed.

Lemma substring_split (s : string) (n : nat) :
  (n <= String.length s)%nat →
  s = String.substring 0 n s +:+ String.substring n (String.length s - n) s.
Proof.
  revert n; induction s as [|c s IH]; intros [|n] Hn; simpl in *; try lia.
  - reflexivity.
  - change (String c s = String c (String.substring 0 (String.length s) s)).
    now rewrite substring_all.
  - transitivity (String c (String.substring 0 n s
                            +:+ String.substring n (String.length s - n) s));
      [f_equal; apply IH; lia | reflexivity].
Qed.

Lemma length_append (a b : string) :
  String.length (a +:+ b) = (String.length a + String.length b)%nat.
Proof.
  induction a as [|c a IH]; [reflexivity|].
  change (S (String.length (a +:+ b)) = S (String.length a + String.length b)).
  now rewrite IH.
Qed.

(** [ends_with] holds exactly for the names that are some text followed by
    the suffix. *)
Lemma ends_with_spec (suffix name : string) :
  ends_with suffix name = true ↔ ∃ stem, name = stem +:+ suffix.
Proof.
  unfold ends_with. rewrite andb_true_iff, Nat.leb_le, String.eqb_eq. split.
  - intros [Hle Hsub].
    exists (String.substring 0 (String.length name - String.length suffix) name).
    pose proof (substring_split name (String.length name - String.length suffix)
                  ltac:(lia)) as Hsplit.
    replace (String.length name - (String.length name - String.length suffix))%nat
      with (String.length suffix) in Hsplit by lia.
    now rewrite Hsub in Hsplit.
  - intros [stem ->]. rewrite length_append. split; [lia|].
    replace (String.length stem + String.length suffix - String.length suffix)%nat
      with (String.length stem) by lia.
    apply substring_append_suffix.
Qed.

#[local] Instance path_le_antisym : AntiSymm (=) path_le.
Proof.
  intros p q [H1| ->] [H2|H2]; try congruence.
  apply path_lt_asym in H1. congruence.
Qed.

(** X1. The frame list holds the files of [imaging_frames] whose name ends in
    "jpg", each once per listing entry, and nothing else. *)
Theorem image_paths_members (case_path : path) (listing : list string) :
  (∀ p, p ∈ image_paths case_path listing ↔
        ∃ stem, (stem +:+ "jpg")%string ∈ listing
                ∧ p = case_path ++ ["imaging_frames"; (stem +:+ "jpg")%string])
  ∧ length (image_paths case_path listing)
    = length (filter (λ name, ends_with "jpg" name = true) listing).
Proof.
  unfold image_paths. split.
  - intros p. rewrite sorted_perm. unfold glob_imaging_frames.
    rewrite list_elem_of_fmap. split.
    + intros (name & -> & Hin). apply list_elem_of_filter in Hin as [Hjpg Hin].
      apply ends_with_spec in Hjpg as [stem ->]. eauto.
    + intros (stem & Hin & ->). exists (stem +:+ "jpg")%string. split; [reflexivity|].
      apply list_elem_of_filter. split; [|exact Hin]. apply ends_with_spec. eauto.
  - rewrite sorted_perm. unfold glob_imaging_frames. apply length_fmap.
Qed.

(** X2. The frame order does not depend on the order in which the file system
    lists the directory. *)
Theorem image_paths_listing_order (case_path : path) (listing listing' : list string) :
  listing ≡ₚ listing' →
  image_paths case_path listing = image_paths case_path listing'.
Proof.
  intros Hperm. unfold image_paths.
  apply (Sorted_unique path_le); [apply sorted_Sorted..|].
  rewrite !sorted_perm. unfold glob_imaging_frames. now rewrite Hperm.
Qed.

Lemma image_paths_listing_order_witness :
  image_paths ["kits19_frames_1"; "case_00117"] ["0002.jpg"; "notes.txt"; "0001.jpg"]
  = image_paths ["kits19_frames_1"; "case_00117"] ["0001.jpg"; "0002.jpg"; "notes.txt"].
Proof.
  apply image_paths_listing_order.
  change ["0002.jpg"; "notes.txt"; "0001.jpg"]
    with (["0002.jpg"; "notes.txt"] ++ ["0001.jpg"]).
  symmetry. apply Permutation_cons_append.
Defined.

(** X3. Distinct files get distinct Frame indices: when no name is listed twice,
    the paths are strictly increasing along the Frame index. *)
Theorem image_paths_strictly_increasing (case_path : path) (listing : list string) :
  NoDup listing →
  NoDup (image_paths case_path listing)
  ∧ ∀ (i j : nat) (p q : path),
      (i < j)%nat →
      frame_path (image_paths case_path listing) i = Some p →
      frame_path (image_paths case_path listing) j = Some q →
      path_lt p q = true.
Proof.
  intros Hnd.
  assert (Hnd' : NoDup (image_paths case_path listing)).
  { unfold image_paths. rewrite sorted_perm. unfold glob_imaging_frames.
    apply NoDup_fmap_2; [|now apply NoDup_filter].
    intros a b Hab. apply app_inv_head in Hab. congruence. }
  split; [exact Hnd'|]. unfold frame_path.
  intros i j p q Hij Hi Hj.
  pose proof (sorted_Sorted (glob_imaging_frames case_path listing)) as Hs.
  apply Sorted_StronglySorted in Hs; [|exact path_le_trans].
  destruct (StronglySorted_lookup _ i j p q Hs Hij Hi Hj) as [Hlt| ->]; [exact Hlt|].
  exfalso. pose proof (NoDup_lookup _ i j q Hnd' Hi Hj). lia.
Qed.

Lemma image_paths_strictly_increasing_witness :
  NoDup (image_paths ["kits19_frames_1"; "case_00117"] ["0010.jpg"; "0002.jpg"])
  ∧ ∀ (i j : nat) (p q : path),
      (i < j)%nat →
      frame_path (image_paths ["kits19_frames_1"; "case_00117"] ["0010.jpg"; "0002.jpg"]) i
        = Some p →
      frame_path (image_paths ["kits19_frames_1"; "case_00117"] ["0010.jpg"; "0002.jpg"]) j
        = Some q →
      path_lt p q = true.
Proof.
  apply image_paths_strictly_increasing.
  apply NoDup_cons. split; [|apply NoDup_singleton].
  intros H. apply list_elem_of_singleton in H. discriminate.
Defined.

(** The pattern has no dot: a name that merely ends in the letters "jpg"
    is a frame too, and the order is that of the characters, not of the
    numbers the names may spell. *)
Example image_paths_quirks :
  image_paths ["c"] ["9.jpg"; "10.jpg"; "previewjpg"; "a.JPG"]
  = [ ["c"; "imaging_frames"; "10.jpg"];
      ["c"; "imaging_frames"; "9.jpg"];
      ["c"; "imaging_frames"; "previewjpg"] ].
Proof. reflexivity. Qed.

End FrameSource.

(** ** Data preparation: the download cell of the live-inference notebook *)

Module DataPrep.

Import FrameSource.

(** The file system as the set of paths that exist (files and directories):
    [Path.exists] is the only observation the cell makes. The external calls
    ([download_file], [ZipFile.extractall], [os.remove]) are described by their
    effect on that set in a run where none of them raises. *)
Abbreviation filesystem := (gset path).

(** What the cell does, in order. *)
Inductive action :=
  | Download (url : string)
  | ExtractAll (zipfile base : path)
  | Remove (file : path)
  | Print (message : string).

(** [f"{n:05d}"]: decimal digits, padded with zeros on the left to width 5. *)
Definition format_05d (n : nat) : string :=
  let digits := pretty n in
  String.concat "" (replicate (5 - String.length digits) "0") +:+ digits.

Definition BASEDIR : path := ["kits19_frames_1"].

Definition case_name (CASE : nat) : string := "case_" +:+ format_05d CASE.

(** [case_path = BASEDIR / f"case_{CASE:05d}"] *)
Definition case_path (CASE : nat) : path := BASEDIR ++ [case_name CASE].

Definition case_url (CASE : nat) : string :=
  "https://storage.openvinotoolkit.org/data/test_data/openvino_notebooks/kits19/"
  +:+ case_name CASE +:+ ".zip".

(** [download_file(url)] stores the file under the last component of the URL
    in the working directory and returns that path. *)
Definition downloaded_file (CASE : nat) : path := [case_name CASE +:+ ".zip"].

(** The non-empty prefixes of a path: the path and the directories above it. *)
Definition prefixes (p : path) : list path :=
  map (λ n, take n p) (seq 1 (length p)).

(** Extracting one archive member below [base] creates the member and the
    directories above it that are missing. *)
Definition extract (base : path) (fs : filesystem) (member : path) : filesystem :=
  fs ∪ list_to_set (prefixes (base ++ member)).

(** [zip_ref.extractall(path=base)] *)
Definition extractall (base : path) (members : list path) (fs : filesystem) : filesystem :=
  foldl (extract base) fs members.

(** The cell. [archive] lists the members of the zip file the server sends. *)
Definition prepare_data (CASE : nat) (archive : list path) (fs : filesystem)
  : filesystem * list action :=
  if decide (case_path CASE ∈ fs) then
    (fs, [Print ("Data for " +:+ case_name CASE +:+ " exists")])
  else
    let filename := downloaded_file CASE in
    let fs1 := fs ∪ {[filename]} in
    let fs2 := extractall BASEDIR archive fs1 in
    let fs3 := fs2 ∖ {[filename]} in
    (fs3, [Download (case_url CASE); ExtractAll filename BASEDIR; Remove filename;
           Print ("Downloaded and extracted data for " +:+ case_name CASE)]).

(** The cell performed a file-system operation. *)
Definition is_write (a : action) : bool :=
  match a with
  | Print _ => false
  | _ => true
  end.

Example case_path_117 : case_path 117 = ["kits19_frames_1"; "case_00117"].
Proof. reflexivity. Qed.

Example case_url_117 :
  case_url 117 =
  "https://storage.openvinotoolkit.org/data/test_data/openvino_notebooks/kits19/case_00117.zip".
Proof. reflexivity. Qed.

Lemma elem_of_prefixes (q p : path) :
  q ∈ prefixes p ↔ q ≠ [] ∧ q `prefix_of` p.
Proof.
  unfold prefixes. rewrite list_elem_of_fmap. split.
  - intros (n & -> & Hn). apply elem_of_seq in Hn. split.
    + intros H. apply (f_equal length) in H. rewrite length_take in H.
      simpl in H. lia.
    + exists (drop n p). now rewrite take_drop.
  - intros (Hne & k & ->). exists (length q). split.
    + now rewrite take_app_length.
    + apply elem_of_seq. rewrite length_app.
      destruct q; [contradiction | simpl; lia].
Qed.

Lemma elem_of_extractall (base q : path) (members : list path) (fs : filesystem) :
  q ∈ extractall base members fs ↔
  q ∈ fs ∨ ∃ m, m ∈ members ∧ q ∈ prefixes (base ++ m).
Proof.
  unfold extractall. revert fs; induction members as [|m ms IH]; intros fs; simpl.
  - split; [now left | intros [H|(m & Hm & _)]; [exact H | inversion Hm]].
  - rewrite IH. unfold extract. rewrite elem_of_union, elem_of_list_to_set. split.
    + intros [[H|H]|(m' & Hm' & H)]; [now left | right; exists m | right; exists m'];
        (split; [|exact H]); [left | now right].
    + intros [H|(m' & Hm' & H)]; [now left; left|].
      apply elem_of_cons in Hm' as [->|Hm']; [now left; right|].
      right. now exists m'.
Qed.

Lemma case_path_extracted (CASE : nat) (m : path) :
  case_path CASE ∈ prefixes (BASEDIR ++ m) ↔ head m = Some (case_name CASE).
Proof.
  rewrite elem_of_prefixes. unfold case_path. split.
  - intros (_ & k & Hk). rewrite <- app_assoc in Hk.
    apply app_inv_head in Hk. now subst m.
  - intros Hm. split; [discriminate|].
    destruct m as [|a m]; simplify_eq/=. now exists m.
Qed.

(** C10 (amended). When [case_path] exists, the cell only prints: the file
    system is returned as it was and no download, extraction or removal
    happens. After the cell [case_path] exists exactly when it existed
    before or the archive has a member at or below the case directory; and
    once it exists, running the cell again changes nothing. *)
Theorem prepare_data_spec (CASE : nat) (archive : list path) (fs : filesystem) :
  (case_path CASE ∈ fs →
     (prepare_data CASE archive fs).1 = fs
     ∧ Forall (λ a, is_write a = false) (prepare_data CASE archive fs).2)
  ∧ (case_path CASE ∈ (prepare_data CASE archive fs).1 ↔
       case_path CASE ∈ fs ∨ ∃ m, m ∈ archive ∧ head m = Some (case_name CASE))
  ∧ (case_path CASE ∈ (prepare_data CASE archive fs).1 →
       ∀ archive', (prepare_data CASE archive' (prepare_data CASE archive fs).1).1
                   = (prepare_data CASE archive fs).1).
Proof.
  assert (Hskip : ∀ a fs', case_path CASE ∈ fs' →
            (prepare_data CASE a fs').1 = fs'
            ∧ Forall (λ a, is_write a = false) (prepare_data CASE a fs').2).
  { intros a fs' Hin. unfold prepare_data.
    destruct (decide (case_path CASE ∈ fs')); [|contradiction].
    simpl. split; [reflexivity | repeat constructor]. }
  split; [apply Hskip|]. split; [|intros H archive'; now apply Hskip].
  unfold prepare_data. destruct (decide (case_path CASE ∈ fs)) as [Hin|Hout]; simpl.
  - split; [now left | intros _; exact Hin].
  - rewrite elem_of_difference, elem_of_extractall, elem_of_union, !elem_of_singleton.
    setoid_rewrite case_path_extracted.
    assert (Hne : case_path CASE ≠ downloaded_file CASE) by discriminate.
    split.
    + intros [[[H|H]|H] _]; [now left | contradiction | now right].
    + intros [H|H]; [contradiction|]. split; [now right | exact Hne].
Qed.

(** The claim as stated fails in the download branch: an archive without
    the case directory leaves [case_path] missing. *)
Lemma prepare_data_may_leave_case_path_missing :
  case_path 117 ∉ (prepare_data 117 [["case_00116"; "imaging_frames"; "0001.jpg"]] ∅).1.
Proof. apply (bool_decide_unpack _). vm_compute. exact I. Qed.

Example prepare_data_downloads :
  prepare_data 117 [["case_00117"; "imaging_frames"; "0001.jpg"]] ∅
  = ({[ ["kits19_frames_1"];
        ["kits19_frames_1"; "case_00117"];
        ["kits19_frames_1"; "case_00117"; "imaging_frames"];
        ["kits19_frames_1"; "case_00117"; "imaging_frames"; "0001.jpg"] ]},
     [Download (case_url 117); ExtractAll ["case_00117.zip"] BASEDIR;
      Remove ["case_00117.zip"];
      Print "Downloaded and extracted data for case_00117"]).
Proof. vm_compute. reflexivity. Qed.


End DataPrep.

(** ** Arrays: views on shared buffers, as numpy has them *)

Module NDArray.

(** An array is a view: it names a buffer and says how a multi-index is
    turned into a position of that buffer (strides are counted in elements).
    [squeeze], [transpose] and [expand_dims] return a new view of the same
    buffer; [astype] and the OpenCV functions allocate a new buffer. *)
Record ndarray := mk_ndarray {
  base : nat;
  offset : nat;
  shape : list nat;
  strides : list nat
}.

(** The buffers of the running notebook. Floating-point buffers hold exact
    rationals (finite values, arithmetic without rounding); [uint8] buffers
    hold integers. *)
Record heap := mk_heap {
  floats : gmap nat (list Q);
  bytes : gmap nat (list Z)
}.

(** Number of elements of a shape. *)
Fixpoint size (shape : list nat) : nat :=
  match shape with
  | [] => 1
  | n :: rest => n * size rest
  end.

(** Strides of a freshly allocated (C-contiguous) array. *)
Fixpoint c_strides (shape : list nat) : list nat :=
  match shape with
  | [] => []
  | _ :: rest => size rest :: c_strides rest
  end.

(** All multi-indices of a shape, last axis fastest ([np.ndindex]). *)
Fixpoint ndindex (shape : list nat) : list (list nat) :=
  match shape with
  | [] => [[]]
  | n :: rest => mjoin ((λ i, cons i <$> ndindex rest) <$> seq 0 n)
  end.

Definition address (a : ndarray) (idx : list nat) : nat :=
  offset a + sum_list (zip_with Nat.mul idx (strides a)).

(** The buffer positions of the elements of a view, in index order. *)
Definition addresses (a : ndarray) : list nat := address a <$> ndindex (shape a).

Definition valid_index (a : ndarray) (idx : list nat) : bool :=
  bool_decide (Forall2 lt idx (shape a)).

(** [a[idx]] for a full multi-index; [None] stands for [IndexError]. *)
Definition getitem {A} (buf : option (list A)) (a : ndarray) (idx : list nat) : option A :=
  if valid_index a idx then buf ≫= (λ data, data !! address a idx) else None.

Definition getitem_float (a : ndarray) (idx : list nat) (σ : heap) : option Q :=
  getitem (floats σ !! base a) a idx.

Definition getitem_uint8 (a : ndarray) (idx : list nat) (σ : heap) : option Z :=
  getitem (bytes σ !! base a) a idx.

(** [a.squeeze(axis)]: a view without the axis, which must have length one
    ([None] stands for [ValueError]). *)
Definition squeeze (axis : nat) (a : ndarray) : option ndarray :=
  match shape a !! axis with
  | Some 1 => Some {| base := base a; offset := offset a;
                      shape := delete axis (shape a);
                      strides := delete axis (strides a) |}
  | _ => None
  end.

(** [a.transpose(axes)]: a view with shape and strides permuted. *)
Definition transpose (axes : list nat) (a : ndarray) : option ndarray :=
  if bool_decide (length axes = length (shape a) ∧ NoDup axes) then
    shape' ← mapM (λ ax, shape a !! ax) axes;
    strides' ← mapM (λ ax, strides a !! ax) axes;
    Some {| base := base a; offset := offset a; shape := shape'; strides := strides' |}
  else None.

(** [np.expand_dims(a, axis=0)]: a view with a new first axis of length one. *)
Definition expand_dims0 (a : ndarray) : ndarray :=
  {| base := base a; offset := offset a;
     shape := 1 :: shape a; strides := 0 :: strides a |}.

(** An element-wise update in place: the buffer positions of the view are
    visited in index order. *)
Definition update_elements {A} (f : A → A) (addrs : list nat) (data : list A) : list A :=
  foldl (λ d ad, alter f ad d) data addrs.

(** [a *= c] on a float array. *)
Definition imul (a : ndarray) (c : Q) (σ : heap) : option heap :=
  data ← floats σ !! base a;
  Some {| floats := <[base a := update_elements (λ x, x * c)%Q (addresses a) data]> (floats σ);
          bytes := bytes σ |}.

Definition Qltb (x y : Q) : bool := negb (Qle_bool y x).

(** [a < c] and [a > c]: a new boolean array, here the list of its elements
    in index order. *)
Definition compare_scalar (test : Q → bool) (a : ndarray) (σ : heap) : option (list bool) :=
  data ← floats σ !! base a;
  Some ((λ ad, test (default 0%Q (data !! ad))) <$> addresses a).

Definition less (a : ndarray) (c : Q) : heap → option (list bool) :=
  compare_scalar (λ x, Qltb x c) a.

Definition greater (a : ndarray) (c : Q) : heap → option (list bool) :=
  compare_scalar (λ x, Qltb c x) a.

(** [a[mask] = v]: the value is stored wherever the mask holds. *)
Definition assign_masked (addrs : list nat) (mask : list bool) (v : Q) (data : list Q) : list Q :=
  foldl (λ d '(ad, m), if (m : bool) then <[ad := v]> d else d) data (zip addrs mask).

Definition setitem_mask (a : ndarray) (mask : list bool) (v : Q) (σ : heap) : option heap :=
  data ← floats σ !! base a;
  Some {| floats := <[base a := assign_masked (addresses a) mask v data]> (floats σ);
          bytes := bytes σ |}.

(** The C conversion of a float to [uint8]: the fractional part is dropped
    (rounding toward zero), then the value is taken modulo 256. *)
Definition to_uint8 (x : Q) : Z :=
  (Z.quot (Qnum x) (Z.pos (Qden x))) mod 256.

(** [a.astype(np.uint8)]: a new array with a buffer of its own. *)
Definition astype_uint8 (a : ndarray) (σ : heap) : option (ndarray * heap) :=
  data ← floats σ !! base a;
  let b := fresh (dom (bytes σ)) in
  Some ({| base := b; offset := 0; shape := shape a; strides := c_strides (shape a) |},
        {| floats := floats σ;
           bytes := <[b := (λ ad, to_uint8 (default 0%Q (data !! ad))) <$> addresses a]> (bytes σ) |}).

(** [convert_result_to_image] of the super-resolution notebook:
<<
    result = result.squeeze(0).transpose(1, 2, 0)
    result *= 255
    result[result < 0] = 0
    result[result > 255] = 255
    result = result.astype(np.uint8)
    return result
>> *)
Definition convert_result_to_image (result : ndarray) (σ : heap) : option (ndarray * heap) :=
  squeezed ← squeeze 0 result;
  result ← transpose [1; 2; 0] squeezed;
  σ ← imul result 255 σ;
  negative ← less result 0 σ;
  σ ← setitem_mask result negative 0 σ;
  too_large ← greater result 255 σ;
  σ ← setitem_mask result too_large 255 σ;
  astype_uint8 result σ.

(** A freshly allocated float array with the given data. *)
Definition float_array (b : nat) (shape : list nat) : ndarray :=
  {| base := b; offset := 0; shape := shape; strides := c_strides shape |}.

(** What happens to one element up to the conversion: scaled, then clipped. *)
Definition scale_clip (x : Q) : Q :=
  let y := (x * 255)%Q in
  let y := if Qltb y 0 then 0%Q else y in
  if Qltb 255 y then 255%Q else y.

(** *** Multi-indices *)

Lemma length_ndindex (s : list nat) : length (ndindex s) = size s.
Proof.
  induction s as [|n s IH]; simpl; [reflexivity|].
  generalize 0. induction n as [|n IHn]; intros k; simpl; [reflexivity|].
  rewrite length_app, length_fmap, IH, IHn. reflexivity.
Qed.

Lemma elem_of_ndindex (s idx : list nat) : idx ∈ ndindex s ↔ Forall2 lt idx s.
Proof.
  revert idx; induction s as [|n s IH]; intros idx; simpl.
  - rewrite list_elem_of_singleton. split; [intros ->; constructor|].
    now inversion 1.
  - rewrite list_elem_of_join. split.
    + intros (block & Hidx & Hblock).
      apply list_elem_of_fmap in Hblock as (i & -> & Hi).
      apply list_elem_of_fmap in Hidx as (tl & -> & Htl).
      apply elem_of_seq in Hi. constructor; [lia | now apply IH].
    + intros H. inversion H as [|i m tl s' Hi Htl]; subst.
      exists (cons i <$> ndindex s). split.
      * apply list_elem_of_fmap. exists tl. split; [reflexivity | now apply IH].
      * apply list_elem_of_fmap. exists i. split; [reflexivity|].
        apply elem_of_seq. lia.
Qed.

Lemma NoDup_ndindex (s : list nat) : NoDup (ndindex s).
Proof.
  induction s as [|n s IH]; simpl; [apply NoDup_singleton|].
  generalize 0. induction n as [|n IHn]; intros k; simpl; [constructor|].
  apply NoDup_app. split; [|split].
  - apply NoDup_fmap_2; [intros ?? [=]; assumption | exact IH].
  - intros idx Hk Hrest.
    apply list_elem_of_fmap in Hk as (tl & -> & _).
    apply list_elem_of_join in Hrest as (block & Hidx & Hblock).
    apply list_elem_of_fmap in Hblock as (i & -> & Hi).
    apply list_elem_of_fmap in Hidx as (tl' & [= -> _] & _).
    apply elem_of_seq in Hi. lia.
  - apply IHn.
Qed.

(** Position of a multi-index in a freshly allocated array. *)
Definition ravel (s idx : list nat) : nat := sum_list (zip_with Nat.mul idx (c_strides s)).

Lemma lookup_concat_uniform {A} (blocks : list (list A)) (m i r : nat) :
  Forall (λ b, length b = m) blocks → r < m →
  mjoin blocks !! (i * m + r) = blocks !! i ≫= (.!! r).
Proof.
  intros Hlen Hr. revert i; induction Hlen as [|b blocks Hb _ IH]; intros i; simpl.
  - now rewrite !lookup_nil.
  - destruct i as [|i]; simpl.
    + rewrite lookup_app_l by lia. reflexivity.
    + rewrite lookup_app_r by lia. rewrite <- IH. f_equal. lia.
Qed.

Lemma lookup_ndindex_ravel (s idx : list nat) :
  Forall2 lt idx s → ndindex s !! ravel s idx = Some idx ∧ ravel s idx < size s.
Proof.
  unfold ravel. induction 1 as [|i n idx s Hi Hrest [IH1 IH2]]; simpl.
  - split; [reflexivity | lia].
  - split; [|nia].
    rewrite (lookup_concat_uniform _ (size s)); [| |exact IH2].
    + rewrite list_lookup_fmap, lookup_seq_lt by lia. simpl.
      rewrite list_lookup_fmap, IH1. reflexivity.
    + apply Forall_fmap, Forall_forall. intros k _. simpl.
      now rewrite length_fmap, length_ndindex.
Qed.

(** *** Updates in place *)

Lemma length_update_elements {A} (f : A → A) (addrs : list nat) (data : list A) :
  length (update_elements f addrs data) = length data.
Proof.
  unfold update_elements. revert data; induction addrs as [|ad addrs IH]; intros data; simpl.
  - reflexivity.
  - now rewrite IH, length_alter.
Qed.

Lemma update_elements_lookup {A} (f : A → A) (addrs : list nat) (data : list A) (i : nat) :
  NoDup addrs →
  update_elements f addrs data !! i
  = if decide (i ∈ addrs) then f <$> data !! i else data !! i.
Proof.
  unfold update_elements. intros Hnd; revert data.
  induction Hnd as [|ad addrs Hnotin Hnd IH]; intros data; simpl.
  - destruct (decide (i ∈ [])) as [Hin|_]; [inversion Hin | reflexivity].
  - rewrite IH. destruct (decide (i = ad)) as [->|Hne].
    + rewrite decide_False by assumption. rewrite decide_True by left.
      apply list_lookup_alter_eq.
    + rewrite list_lookup_alter_ne by congruence.
      destruct (decide (i ∈ addrs)) as [Hin|Hout].
      * rewrite decide_True by now right. reflexivity.
      * rewrite decide_False; [reflexivity|].
        rewrite elem_of_cons. intros [?|?]; contradiction.
Qed.

(** A view that reaches every position of its buffer once updates the whole
    buffer. *)
Lemma update_elements_all {A} (f : A → A) (addrs : list nat) (data : list A) :
  NoDup addrs → (∀ i, i < length data → i ∈ addrs) →
  update_elements f addrs data = f <$> data.
Proof.
  intros Hnd Hall. apply list_eq. intros i.
  rewrite update_elements_lookup, list_lookup_fmap by assumption.
  destruct (decide (i ∈ addrs)) as [_|Hout]; [reflexivity|].
  destruct (data !! i) eqn:E; [|reflexivity].
  exfalso. apply Hout, Hall. eapply lookup_lt_Some, E.
Qed.

(** A masked assignment whose mask was computed from the array itself is an
    element-wise update. *)
Lemma assign_masked_update (test : Q → bool) (v : Q) (addrs : list nat) (data : list Q) :
  NoDup addrs →
  assign_masked addrs ((λ ad, test (default 0%Q (data !! ad))) <$> addrs) v data
  = update_elements (λ x, if test x then v else x) addrs data.
Proof.
  unfold assign_masked, update_elements. intros Hnd.
  set (g := λ x : Q, if test x then v else x).
  cut (∀ cur : list Q,
         (∀ ad, ad ∈ addrs → cur !! ad = data !! ad) →
         foldl (λ d '(ad, m), if (m : bool) then <[ad := v]> d else d) cur
               (zip addrs ((λ ad, test (default 0%Q (data !! ad))) <$> addrs))
         = foldl (λ d ad, alter g ad d) cur addrs).
  { intros H. apply H. reflexivity. }
  induction Hnd as [|ad addrs Hnotin Hnd IH]; intros cur Hcur; simpl; [reflexivity|].
  assert (Hstep : (if test (default 0%Q (data !! ad)) then <[ad := v]> cur else cur)
                  = alter g ad cur).
  { rewrite <- (Hcur ad) by left.
    destruct (test (default 0%Q (cur !! ad))) eqn:Et.
    - rewrite list_insert_alter. apply list_alter_ext; [|reflexivity].
      intros x Hx. rewrite Hx in Et. simpl in Et. unfold g. now rewrite Et.
    - symmetry. apply list_eq; intros j. rewrite list_lookup_alter.
      destruct (decide (ad = j)) as [->|]; [|reflexivity].
      destruct (cur !! j) as [x|]; simpl in *; [|reflexivity].
      unfold g. now rewrite Et. }
  rewrite Hstep. apply IH. intros ad' Hin.
  rewrite list_lookup_alter_ne by (intros ->; contradiction).
  apply Hcur. now right.
Qed.

(** *** The view [convert_result_to_image] works on *)

(** The caller's array: freshly allocated, with its data in the heap. *)
Definition holds_float_array (σ : heap) (a : ndarray) (s : list nat) (data : list Q) : Prop :=
  a = float_array (base a) s ∧ floats σ !! base a = Some data ∧ length data = size s.

(** [result.squeeze(0).transpose(1, 2, 0)] of an array of shape (1, C, H, W). *)
Definition hwc_view (b C H W : nat) : ndarray :=
  {| base := b; offset := 0; shape := [H; W; C]; strides := [W * 1; 1; H * (W * 1)] |}.

Lemma squeeze_transpose_view (b C H W : nat) :
  squeeze 0 (float_array b [1; C; H; W]) ≫= transpose [1; 2; 0] = Some (hwc_view b C H W).
Proof. reflexivity. Qed.

Lemma hwc_address (b C H W h w c : nat) :
  address (hwc_view b C H W) [h; w; c] = c * (H * W) + h * W + w.
Proof. unfold address. simpl. lia. Qed.

Lemma in_range_covered (l : list nat) (n : nat) :
  NoDup l → (∀ x, x ∈ l → x < n) → length l = n → ∀ i, i < n → i ∈ l.
Proof.
  intros Hnd Hlt Hlen i Hi.
  assert (Hsub : l ⊆+ seq 0 n).
  { apply NoDup_submseteq; [exact Hnd|]. intros x Hx. apply elem_of_seq.
    specialize (Hlt x Hx). lia. }
  apply submseteq_length_Permutation in Hsub; [|rewrite length_seq; lia].
  rewrite Hsub. apply elem_of_seq. lia.
Qed.

Lemma hwc_index_inv (H W C : nat) (idx : list nat) :
  idx ∈ ndindex [H; W; C] → ∃ h w c, idx = [h; w; c] ∧ h < H ∧ w < W ∧ c < C.
Proof.
  rewrite elem_of_ndindex. intros Hf.
  inversion Hf as [|h ? tl1 ? Hh Hf1]; subst.
  inversion Hf1 as [|w ? tl2 ? Hw Hf2]; subst.
  inversion Hf2 as [|c ? tl3 ? Hc Hf3]; subst.
  inversion Hf3; subst. now exists h, w, c.
Qed.

(** The transposed view reaches every position of the buffer exactly once. *)
Lemma hwc_addresses (b C H W : nat) :
  NoDup (addresses (hwc_view b C H W))
  ∧ ∀ i, i < size [1; C; H; W] → i ∈ addresses (hwc_view b C H W).
Proof.
  assert (Hnd : NoDup (addresses (hwc_view b C H W))).
  { unfold addresses. apply NoDup_fmap_2_strong; [|apply NoDup_ndindex].
    intros i1 i2 H1 H2. simpl in H1, H2.
    apply hwc_index_inv in H1 as (h1 & w1 & c1 & -> & Hh1 & Hw1 & Hc1).
    apply hwc_index_inv in H2 as (h2 & w2 & c2 & -> & Hh2 & Hw2 & Hc2).
    rewrite !hwc_address. intros Heq.
    destruct (Nat.div_mod_unique W (c1 * H + h1) (c2 * H + h2) w1 w2) as [Hq ->];
      [assumption | assumption | lia |].
    destruct (Nat.div_mod_unique H c1 c2 h1 h2) as [-> ->];
      [assumption | assumption | lia |].
    reflexivity. }
  split; [exact Hnd|].
  apply in_range_covered; [exact Hnd| |].
  - intros x Hx. unfold addresses in Hx.
    apply list_elem_of_fmap in Hx as (idx & -> & Hidx). simpl in Hidx.
    apply hwc_index_inv in Hidx as (h & w & c & -> & Hh & Hw & Hc).
    rewrite hwc_address. simpl.
    pose proof (Nat.mul_le_mono_r (c + 1) C (H * W) ltac:(lia)).
    pose proof (Nat.mul_le_mono_r (h + 1) H W ltac:(lia)).
    lia.
  - unfold addresses. rewrite length_fmap, length_ndindex. simpl. lia.
Qed.

(** *** Values *)

(** The value of an output pixel: the input scaled by 255, clipped to
    [0, 255], fractional part dropped. *)
Definition pixel_value (x : Q) : Z := Qfloor (Qmin 255 (Qmax 0 (x * 255))).

Lemma Qltb_lt (x y : Q) : Qltb x y = true ↔ (x < y)%Q.
Proof.
  unfold Qltb. rewrite negb_true_iff, <- not_true_iff_false, Qle_bool_iff.
  split; [apply Qnot_le_lt | apply Qlt_not_le].
Qed.

Lemma Qltb_ge (x y : Q) : Qltb x y = false ↔ (y <= x)%Q.
Proof.
  unfold Qltb. rewrite negb_false_iff. apply Qle_bool_iff.
Qed.

Lemma scale_clip_clamp (x : Q) : (scale_clip x == Qmin 255 (Qmax 0 (x * 255)))%Q.
Proof.
  unfold scale_clip. destruct (Qltb (x * 255) 0) eqn:Elo.
  - apply Qltb_lt in Elo. change (Qltb 255 0) with false. cbv iota.
    rewrite Q.max_l by now apply Qlt_le_weak. now rewrite Q.min_r.
  - apply Qltb_ge in Elo. rewrite Q.max_r by assumption.
    destruct (Qltb 255 (x * 255)) eqn:Ehi.
    + apply Qltb_lt in Ehi. rewrite Q.min_l; [reflexivity | now apply Qlt_le_weak].
    + apply Qltb_ge in Ehi. now rewrite Q.min_r.
Qed.

Lemma scale_clip_range (x : Q) : (0 <= scale_clip x <= 255)%Q.
Proof.
  rewrite scale_clip_clamp. split.
  - apply Q.min_glb; [discriminate | apply Q.le_max_l].
  - apply Q.le_min_l.
Qed.

Lemma to_uint8_in_range (y : Q) :
  (0 <= y <= 255)%Q → to_uint8 y = Qfloor y ∧ (0 ≤ Qfloor y ≤ 255)%Z.
Proof.
  intros [Hlo Hhi].
  assert (Hfl : (0 ≤ Qfloor y ≤ 255)%Z).
  { split.
    - change 0%Z with (Qfloor 0). now apply Qfloor_resp_le.
    - change 255%Z with (Qfloor 255). now apply Qfloor_resp_le. }
  split; [|exact Hfl].
  unfold to_uint8. destruct y as [n d]. unfold Qfloor in *. simpl.
  assert (0 ≤ n)%Z by (unfold Qle in Hlo; simpl in Hlo; lia).
  rewrite Z.quot_div_nonneg by lia. apply Z.mod_small. lia.
Qed.

Lemma to_uint8_scale_clip (x : Q) :
  to_uint8 (scale_clip x) = pixel_value x ∧ (0 ≤ pixel_value x ≤ 255)%Z.
Proof.
  unfold pixel_value. rewrite <- (Qfloor_comp _ _ (scale_clip_clamp x)).
  apply to_uint8_in_range, scale_clip_range.
Qed.


(** *** [convert_result_to_image] *)

(** The heap and the array the function returns, in closed form. *)
Lemma convert_result_to_image_run (σ : heap) (result : ndarray) (C H W : nat) (data : list Q) :
  holds_float_array σ result [1; C; H; W] data →
  convert_result_to_image result σ
  = Some (float_array (fresh (dom (bytes σ))) [H; W; C],
          {| floats := <[base result := scale_clip <$> data]> (floats σ);
             bytes := <[fresh (dom (bytes σ)) :=
                          (λ ad, to_uint8 (default 0%Q ((scale_clip <$> data) !! ad)))
                            <$> addresses (hwc_view (base result) C H W)]> (bytes σ) |}).
Proof.
  intros (Harr & Hdata & Hlen).
  destruct (hwc_addresses (base result) C H W) as [Hnd Hall].
  pose proof (squeeze_transpose_view (base result) C H W) as Hview.
  rewrite <- Harr in Hview.
  set (b := base result) in *. set (v := hwc_view b C H W) in *.
  (* result *= 255 *)
  set (d1 := update_elements (λ x, (x * 255)%Q) (addresses v) data).
  set (σ1 := {| floats := <[b := d1]> (floats σ); bytes := bytes σ |}).
  assert (H1 : imul v 255 σ = Some σ1).
  { unfold imul. change (base v) with b. now rewrite Hdata. }
  (* result[result < 0] = 0 *)
  set (d2 := update_elements (λ x, if Qltb x 0 then 0%Q else x) (addresses v) d1).
  set (σ2 := {| floats := <[b := d2]> (floats σ1); bytes := bytes σ |}).
  assert (H2 : less v 0 σ1 = Some ((λ ad, Qltb (default 0%Q (d1 !! ad)) 0) <$> addresses v)).
  { unfold less, compare_scalar. change (base v) with b. simpl.
    now rewrite lookup_insert_eq. }
  assert (H2' : setitem_mask v ((λ ad, Qltb (default 0%Q (d1 !! ad)) 0) <$> addresses v) 0 σ1
                = Some σ2).
  { unfold setitem_mask. change (base v) with b. simpl. rewrite lookup_insert_eq. simpl.
    now rewrite (assign_masked_update (λ x, Qltb x 0)) by exact Hnd. }
  (* result[result > 255] = 255 *)
  set (d3 := update_elements (λ x, if Qltb 255 x then 255%Q else x) (addresses v) d2).
  set (σ3 := {| floats := <[b := d3]> (floats σ2); bytes := bytes σ |}).
  assert (H3 : greater v 255 σ2 = Some ((λ ad, Qltb 255 (default 0%Q (d2 !! ad))) <$> addresses v)).
  { unfold greater, compare_scalar. change (base v) with b. simpl.
    now rewrite lookup_insert_eq. }
  assert (H3' : setitem_mask v ((λ ad, Qltb 255 (default 0%Q (d2 !! ad))) <$> addresses v) 255 σ2
                = Some σ3).
  { unfold setitem_mask. change (base v) with b. simpl. rewrite lookup_insert_eq. simpl.
    now rewrite (assign_masked_update (λ x, Qltb 255 x)) by exact Hnd. }
  assert (Hd3 : d3 = scale_clip <$> data).
  { assert (Hcover : ∀ (f : Q → Q) (d : list Q), length d = length data →
              update_elements f (addresses v) d = f <$> d).
    { intros f d Hd. apply update_elements_all; [exact Hnd|].
      rewrite Hd, Hlen. exact Hall. }
    unfold d3, d2, d1.
    rewrite !Hcover by now rewrite ?length_fmap, ?length_update_elements, ?length_fmap.
    rewrite <- !list_fmap_compose. reflexivity. }
  unfold convert_result_to_image.
  destruct (squeeze 0 result) as [squeezed|]; [|discriminate].
  simpl in Hview |- *. rewrite Hview. simpl.
  rewrite H1. simpl. rewrite H2. simpl. rewrite H2'. simpl.
  rewrite H3. simpl. rewrite H3'. simpl.
  unfold astype_uint8. change (base v) with b. simpl.
  rewrite lookup_insert_eq. simpl. rewrite !insert_insert_eq, Hd3.
  reflexivity.
Qed.



(** A network result of shape (1, 2, 1, 3): two channels, one row, three
    columns. *)
Definition example_data : list Q := [1 # 2; -1 # 1; 2 # 1; 1 # 255; 0 # 1; 3 # 10]%Q.

Definition example_heap : heap := {| floats := {[ 0 := example_data ]}; bytes := ∅ |}.

Definition example_result : ndarray := float_array 0 [1; 2; 1; 3].

Lemma example_holds : holds_float_array example_heap example_result [1; 2; 1; 3] example_data.
Proof. repeat split. Qed.

Example convert_result_to_image_example :
  (convert_result_to_image example_result example_heap
     ≫= λ '(image, σ'), image_data ← bytes σ' !! base image;
                         Some (shape image, image_data, floats σ' !! 0))
  = Some ([1; 3; 2], [127; 1; 0; 0; 255; 76]%Z,
          Some [255 # 2; 0; 255; 255 # 255; 0; 765 # 10]%Q).
Proof. vm_compute. reflexivity. Qed.




(** *** More on [convert_result_to_image] *)

Lemma chw_address_in_range (C H W c h w : nat) (data : list Q) :
  length data = size [1; C; H; W] → h < H → w < W → c < C →
  c * (H * W) + h * W + w < length data.
Proof.
  intros Hlen Hh Hw Hc. rewrite Hlen. simpl.
  pose proof (Nat.mul_le_mono_r (c + 1) C (H * W) ltac:(lia)).
  pose proof (Nat.mul_le_mono_r (h + 1) H W ltac:(lia)).
  lia.
Qed.

Lemma getitem_float_chw (σ : heap) (result : ndarray) (C H W c h w : nat) (data : list Q) :
  holds_float_array σ result [1; C; H; W] data → h < H → w < W → c < C →
  getitem_float result [0; c; h; w] σ = data !! (c * (H * W) + h * W + w).
Proof.
  intros (Harr & Hdata & Hlen) Hh Hw Hc.
  unfold getitem_float, getitem. rewrite Hdata, Harr. unfold valid_index.
  rewrite bool_decide_eq_true_2 by (simpl; repeat constructor; lia).
  simpl. f_equal. unfold address. simpl. lia.
Qed.

(** The elements of the returned image, read from the data the argument
    held before the call. *)
Lemma convert_result_to_image_elements
    (σ : heap) (result : ndarray) (C H W : nat) (data : list Q) :
  holds_float_array σ result [1; C; H; W] data →
  ∃ image σ',
    convert_result_to_image result σ = Some (image, σ')
    ∧ base image = fresh (dom (bytes σ))
    ∧ is_Some (bytes σ' !! base image)
    ∧ holds_float_array σ' result [1; C; H; W] (scale_clip <$> data)
    ∧ (∀ b, b ≠ base result → floats σ' !! b = floats σ !! b)
    ∧ (∀ b, b ≠ base image → bytes σ' !! b = bytes σ !! b)
    ∧ ∀ h w c, h < H → w < W → c < C →
        getitem_uint8 image [h; w; c] σ'
        = to_uint8 ∘ scale_clip <$> data !! (c * (H * W) + h * W + w).
Proof.
  intros Hpre. eexists _, _.
  split; [exact (convert_result_to_image_run _ _ _ _ _ _ Hpre)|].
  destruct Hpre as (Harr & Hdata & Hlen).
  split; [reflexivity|]. split; [simpl; rewrite lookup_insert_eq; eauto|].
  split; [|split; [|split]].
  - split; [exact Harr|]. simpl. rewrite lookup_insert_eq, length_fmap. auto.
  - intros b Hb. simpl. now rewrite lookup_insert_ne.
  - intros b Hb. simpl in *. now rewrite lookup_insert_ne.
  - intros h w c Hh Hw Hc.
    pose proof (chw_address_in_range C H W c h w data Hlen Hh Hw Hc) as Haddr.
    destruct (lookup_lt_is_Some_2 _ _ Haddr) as [x Hx]. rewrite Hx. simpl.
    unfold getitem_uint8, getitem, valid_index. simpl.
    rewrite bool_decide_eq_true_2 by (repeat constructor; assumption).
    rewrite lookup_insert_eq. simpl.
    destruct (lookup_ndindex_ravel [H; W; C] [h; w; c]) as [Hidx _];
      [repeat constructor; assumption|].
    unfold address, float_array. simpl offset. simpl strides. rewrite Nat.add_0_l.
    change (sum_list (zip_with Nat.mul [h; w; c] [W * (C * 1); C * 1; 1]))
      with (ravel [H; W; C] [h; w; c]).
    unfold addresses. rewrite !list_lookup_fmap.
    change (shape (hwc_view (base result) C H W)) with [H; W; C].
    rewrite Hidx. cbn [fmap option_fmap option_map].
    rewrite hwc_address, list_lookup_fmap, Hx. reflexivity.
Qed.

Lemma pixel_value_mono (x y : Q) : (x <= y)%Q → (pixel_value x ≤ pixel_value y)%Z.
Proof.
  intros Hxy. unfold pixel_value. apply Qfloor_resp_le.
  apply Q.min_le_compat_l, Q.max_le_compat_l.
  apply Qmult_le_compat_r; [exact Hxy | discriminate].
Qed.

Lemma pixel_value_low (x : Q) : (x <= 0)%Q → pixel_value x = 0%Z.
Proof.
  intros Hx. unfold pixel_value.
  assert (Hm : (x * 255 <= 0)%Q).
  { rewrite <- (Qmult_0_l 255). apply Qmult_le_compat_r; [exact Hx | discriminate]. }
  rewrite (Qfloor_comp _ 0); [reflexivity|].
  rewrite Q.max_l by exact Hm. apply Q.min_r. discriminate.
Qed.

Lemma pixel_value_high (x : Q) : (1 <= x)%Q → pixel_value x = 255%Z.
Proof.
  intros Hx. unfold pixel_value.
  assert (Hm : (255 <= x * 255)%Q).
  { rewrite <- (Qmult_1_l 255) at 1. apply Qmult_le_compat_r; [exact Hx | discriminate]. }
  rewrite (Qfloor_comp _ 255); [reflexivity|].
  rewrite Q.max_r by (apply Qle_trans with 255%Q; [discriminate | exact Hm]).
  now apply Q.min_l.
Qed.

(** X7. The conversion keeps the order of brightness and saturates: a larger
    input never gives a smaller pixel, inputs of 0 or less give 0, inputs of
    1 or more give 255. *)
Theorem convert_result_to_image_saturates
    (σ : heap) (result : ndarray) (C H W : nat) (data : list Q) :
  holds_float_array σ result [1; C; H; W] data →
  ∃ image σ',
    convert_result_to_image result σ = Some (image, σ')
    ∧ ∀ h w c h' w' c', h < H → w < W → c < C → h' < H → w' < W → c' < C →
        ∃ x y p q,
          getitem_float result [0; c; h; w] σ = Some x
          ∧ getitem_float result [0; c'; h'; w'] σ = Some y
          ∧ getitem_uint8 image [h; w; c] σ' = Some p
          ∧ getitem_uint8 image [h'; w'; c'] σ' = Some q
          ∧ ((x <= y)%Q → (p ≤ q)%Z)
          ∧ ((x <= 0)%Q → p = 0%Z)
          ∧ ((1 <= x)%Q → p = 255%Z).
Proof.
  intros Hpre.
  destruct (convert_result_to_image_elements _ _ _ _ _ _ Hpre)
    as (image & σ' & Hrun & _ & _ & _ & _ & _ & Helem).
  exists image, σ'. split; [exact Hrun|].
  intros h w c h' w' c' Hh Hw Hc Hh' Hw' Hc'.
  pose proof (proj2 (proj2 Hpre)) as Hlen.
  destruct (lookup_lt_is_Some_2 _ _ (chw_address_in_range C H W c h w data Hlen Hh Hw Hc))
    as [x Hx].
  destruct (lookup_lt_is_Some_2 _ _ (chw_address_in_range C H W c' h' w' data Hlen Hh' Hw' Hc'))
    as [y Hy].
  exists x, y, (pixel_value x), (pixel_value y).
  rewrite !(getitem_float_chw _ _ _ _ _ _ _ _ _ Hpre) by assumption.
  rewrite !Helem by assumption. rewrite Hx, Hy. simpl.
  rewrite (proj1 (to_uint8_scale_clip x)), (proj1 (to_uint8_scale_clip y)).
  repeat split; auto using pixel_value_mono, pixel_value_low, pixel_value_high.
Qed.

Lemma convert_result_to_image_saturates_witness :
  ∃ image σ',
    convert_result_to_image example_result example_heap = Some (image, σ')
    ∧ ∀ h w c h' w' c', h < 1 → w < 3 → c < 2 → h' < 1 → w' < 3 → c' < 2 →
        ∃ x y p q,
          getitem_float example_result [0; c; h; w] example_heap = Some x
          ∧ getitem_float example_result [0; c'; h'; w'] example_heap = Some y
          ∧ getitem_uint8 image [h; w; c] σ' = Some p
          ∧ getitem_uint8 image [h'; w'; c'] σ' = Some q
          ∧ ((x <= y)%Q → (p ≤ q)%Z)
          ∧ ((x <= 0)%Q → p = 0%Z)
          ∧ ((1 <= x)%Q → p = 255%Z).
Proof. exact (convert_result_to_image_saturates _ _ _ _ _ _ example_holds). Defined.

(** X6. Converting the same result array a second time gives another image:
    the first call left the scaled values in the array, so every pixel that
    was not 0 comes out as 255. The image of the first call is not touched. *)
Theorem convert_result_to_image_twice
    (σ : heap) (result : ndarray) (C H W : nat) (data : list Q) :
  holds_float_array σ result [1; C; H; W] data →
  ∃ image1 σ1 image2 σ2,
    convert_result_to_image result σ = Some (image1, σ1)
    ∧ convert_result_to_image result σ1 = Some (image2, σ2)
    ∧ base image2 ≠ base image1
    ∧ ∀ h w c, h < H → w < W → c < C →
        ∃ p1 p2,
          getitem_uint8 image1 [h; w; c] σ1 = Some p1
          ∧ getitem_uint8 image1 [h; w; c] σ2 = Some p1
          ∧ getitem_uint8 image2 [h; w; c] σ2 = Some p2
          ∧ ((1 ≤ p1)%Z → p2 = 255%Z).
Proof.
  intros Hpre.
  destruct (convert_result_to_image_elements _ _ _ _ _ _ Hpre)
    as (image1 & σ1 & Hrun1 & Hbase1 & Hbuf1 & Hpre1 & _ & _ & Helem1).
  destruct (convert_result_to_image_elements _ _ _ _ _ _ Hpre1)
    as (image2 & σ2 & Hrun2 & Hbase2 & _ & _ & _ & Hbytes2 & Helem2).
  assert (Hne : base image2 ≠ base image1).
  { rewrite Hbase2. intros Heq. apply (is_fresh (dom (bytes σ1))).
    rewrite Heq. now apply elem_of_dom. }
  exists image1, σ1, image2, σ2.
  split; [exact Hrun1|]. split; [exact Hrun2|]. split; [exact Hne|].
  intros h w c Hh Hw Hc.
  pose proof (proj2 (proj2 Hpre)) as Hlen.
  destruct (lookup_lt_is_Some_2 _ _ (chw_address_in_range C H W c h w data Hlen Hh Hw Hc))
    as [x Hx].
  exists (pixel_value x), (pixel_value (scale_clip x)).
  assert (H1 : getitem_uint8 image1 [h; w; c] σ1 = Some (pixel_value x)).
  { rewrite Helem1 by assumption. rewrite Hx. simpl.
    now rewrite (proj1 (to_uint8_scale_clip x)). }
  split; [exact H1|]. split; [|split].
  - rewrite <- H1. unfold getitem_uint8. rewrite Hbytes2 by auto. reflexivity.
  - rewrite Helem2 by assumption. rewrite list_lookup_fmap, Hx. simpl.
    now rewrite (proj1 (to_uint8_scale_clip (scale_clip x))).
  - intros Hp. apply pixel_value_high.
    destruct (to_uint8_in_range (scale_clip x) (scale_clip_range x)) as [Hfl _].
    rewrite (proj1 (to_uint8_scale_clip x)) in Hfl.
    apply Qle_trans with (inject_Z (Qfloor (scale_clip x))); [|apply Qfloor_le].
    rewrite <- Hfl. change 1%Q with (inject_Z 1). now rewrite <- Zle_Qle.
Qed.

Lemma convert_result_to_image_twice_witness :
  ∃ image1 σ1 image2 σ2,
    convert_result_to_image example_result example_heap = Some (image1, σ1)
    ∧ convert_result_to_image example_result σ1 = Some (image2, σ2)
    ∧ base image2 ≠ base image1
    ∧ ∀ h w c, h < 1 → w < 3 → c < 2 →
        ∃ p1 p2,
          getitem_uint8 image1 [h; w; c] σ1 = Some p1
          ∧ getitem_uint8 image1 [h; w; c] σ2 = Some p1
          ∧ getitem_uint8 image2 [h; w; c] σ2 = Some p2
          ∧ ((1 ≤ p1)%Z → p2 = 255%Z).
Proof. exact (convert_result_to_image_twice _ _ _ _ _ _ example_holds). Defined.

Example convert_result_to_image_twice_example :
  (convert_result_to_image example_result example_heap
     ≫= λ '(_, σ1), convert_result_to_image example_result σ1
     ≫= λ '(image2, σ2), bytes σ2 !! base image2)
  = Some [255; 255; 0; 0; 255; 255]%Z.
Proof. vm_compute. reflexivity. Qed.

(** X8. The call changes no array but its argument: every other float buffer
    and every [uint8] buffer that existed is as before, and the image is
    returned in a buffer that did not exist. *)
Theorem convert_result_to_image_frame
    (σ : heap) (result : ndarray) (C H W : nat) (data : list Q) :
  holds_float_array σ result [1; C; H; W] data →
  ∃ image σ',
    convert_result_to_image result σ = Some (image, σ')
    ∧ bytes σ !! base image = None
    ∧ is_Some (bytes σ' !! base image)
    ∧ (∀ b, b ≠ base result → floats σ' !! b = floats σ !! b)
    ∧ (∀ b pixels, bytes σ !! b = Some pixels → bytes σ' !! b = Some pixels).
Proof.
  intros Hpre.
  destruct (convert_result_to_image_elements _ _ _ _ _ _ Hpre)
    as (image & σ' & Hrun & Hbase & Hbuf & _ & Hfloats & Hbytes & _).
  exists image, σ'. split; [exact Hrun|].
  assert (Hfresh : bytes σ !! base image = None).
  { rewrite Hbase. apply not_elem_of_dom, is_fresh. }
  repeat split; auto.
  intros b pixels Hb. rewrite Hbytes; [exact Hb|]. intros ->. congruence.
Qed.

Lemma convert_result_to_image_frame_witness :
  ∃ image σ',
    convert_result_to_image example_result example_heap = Some (image, σ')
    ∧ bytes example_heap !! base image = None
    ∧ is_Some (bytes σ' !! base image)
    ∧ (∀ b, b ≠ base example_result → floats σ' !! b = floats example_heap !! b)
    ∧ (∀ b pixels, bytes example_heap !! b = Some pixels → bytes σ' !! b = Some pixels).
Proof. exact (convert_result_to_image_frame _ _ _ _ _ _ example_holds). Defined.




(** A batch of two results, or a result without the batch axis, is refused. *)
Example convert_result_to_image_batch_of_two :
  convert_result_to_image (float_array 0 [2; 1; 1; 3]) example_heap = None
  ∧ convert_result_to_image (float_array 0 [1; 2; 3]) example_heap = None.
Proof. split; reflexivity. Qed.

End NDArray.

(** ** Preprocessing: from a frame to the N,C,H,W input tensor *)

Module Preprocess.

Import NDArray.

(** A freshly allocated [uint8] array. *)
Definition uint8_array (b : nat) (s : list nat) : ndarray :=
  {| base := b; offset := 0; shape := s; strides := c_strides s |}.

(** The elements of an array in index order; [None] when the view does not
    lie within a buffer of the heap. *)
Definition contents_uint8 (a : ndarray) (σ : heap) : option (list Z) :=
  data ← bytes σ !! base a; mapM (λ ad, data !! ad) (addresses a).

Definition contents_float (a : ndarray) (σ : heap) : option (list Q) :=
  data ← floats σ !! base a; mapM (λ ad, data !! ad) (addresses a).

(** An OpenCV function on images: it reads the pixels of its source and
    writes its result to a new array. What it computes from the pixels is
    given by [f], from the shape and the pixels in index order to the shape
    and pixels of the result ([None] stands for [cv2.error]). *)
Definition cv2_call (f : list nat → list Z → option (list nat * list Z))
    (src : ndarray) (σ : heap) : option (ndarray * heap) :=
  pixels ← contents_uint8 src σ;
  '(s, out) ← f (shape src) pixels;
  let b := fresh (dom (bytes σ)) in
  Some (uint8_array b s, {| floats := floats σ; bytes := <[b := out]> (bytes σ) |}).

(** [a.astype(np.float32)] of a [uint8] array: a new float buffer; every
    byte value is a float. *)
Definition astype_float32 (a : ndarray) (σ : heap) : option (ndarray * heap) :=
  pixels ← contents_uint8 a σ;
  let b := fresh (dom (floats σ)) in
  Some (float_array b (shape a),
        {| floats := <[b := inject_Z <$> (pixels : list Z)]> (floats σ); bytes := bytes σ |}).

Section Preprocessing.

(** The pixel functions of [cv2.cvtColor(_, cv2.COLOR_BGR2GRAY)] and of
    [cv2.resize(_, (width, height))]. *)
Variable cvtColor_BGR2GRAY : list nat → list Z → option (list nat * list Z).
Variable resize : nat * nat → list nat → list Z → option (list nat * list Z).

Definition bgr_to_gray (image : ndarray) (σ : heap) : option (ndarray * heap) :=
  cv2_call cvtColor_BGR2GRAY image σ.

(** The super-resolution notebook:
<<
    gray_img = bgr_to_gray(img)
    resized_img = cv2.resize(gray_img, (input_width, input_height))
    input_img = np.expand_dims(resized_img, axis=0)
    input_img = np.expand_dims(input_img, axis=0)
>> *)
Definition prepare_superresolution (img : ndarray) (input_width input_height : nat)
    (σ : heap) : option (ndarray * heap) :=
  '(gray_img, σ) ← bgr_to_gray img σ;
  '(resized_img, σ) ← cv2_call (resize (input_width, input_height)) gray_img σ;
  let input_img := expand_dims0 resized_img in
  let input_img := expand_dims0 input_img in
  Some (input_img, σ).

(** The API notebook:
<<
    resized_image = cv2.resize(src=image, dsize=(W, H))
    input_data = np.expand_dims(np.transpose(resized_image, (2, 0, 1)), 0).astype(np.float32)
>> *)
Definition prepare_api (image : ndarray) (W H : nat) (σ : heap) : option (ndarray * heap) :=
  '(resized_image, σ) ← cv2_call (resize (W, H)) image σ;
  transposed ← transpose [2; 0; 1] resized_image;
  astype_float32 (expand_dims0 transposed) σ.

End Preprocessing.

(** Every buffer of [σ] is in [τ] with the same data. *)
Definition preserved (σ τ : heap) : Prop :=
  (∀ b data, bytes σ !! b = Some data → bytes τ !! b = Some data)
  ∧ (∀ b data, floats σ !! b = Some data → floats τ !! b = Some data).

(** Two arrays hold the same tensor: the same layout over buffers with the
    same data. *)
Definition same_layout (a a' : ndarray) : Prop :=
  offset a = offset a' ∧ shape a = shape a' ∧ strides a = strides a'.

Definition same_uint8 (a : ndarray) (σ : heap) (a' : ndarray) (σ' : heap) : Prop :=
  same_layout a a' ∧ bytes σ !! base a = bytes σ' !! base a'.

Definition same_float (a : ndarray) (σ : heap) (a' : ndarray) (σ' : heap) : Prop :=
  same_layout a a' ∧ floats σ !! base a = floats σ' !! base a'.

Lemma same_layout_addresses (a a' : ndarray) : same_layout a a' → addresses a = addresses a'.
Proof.
  intros (Ho & Hs & Hst). unfold addresses, address. rewrite Ho, Hs, Hst. reflexivity.
Qed.

Lemma same_uint8_contents (a a' : ndarray) (σ σ' : heap) :
  same_uint8 a σ a' σ' →
  shape a = shape a' ∧ contents_uint8 a σ = contents_uint8 a' σ'.
Proof.
  intros [Hl Hb]. split; [apply Hl|].
  unfold contents_uint8. now rewrite Hb, (same_layout_addresses _ _ Hl).
Qed.

Lemma same_float_contents (a a' : ndarray) (σ σ' : heap) :
  same_float a σ a' σ' →
  shape a = shape a' ∧ contents_float a σ = contents_float a' σ'.
Proof.
  intros [Hl Hb]. split; [apply Hl|].
  unfold contents_float. now rewrite Hb, (same_layout_addresses _ _ Hl).
Qed.

Lemma preserved_refl (σ : heap) : preserved σ σ.
Proof. split; auto. Qed.

Lemma preserved_trans (σ τ υ : heap) : preserved σ τ → preserved τ υ → preserved σ υ.
Proof. intros [H1 H2] [H3 H4]. split; eauto. Qed.

Lemma preserved_alloc_bytes (σ : heap) (out : list Z) :
  preserved σ {| floats := floats σ; bytes := <[fresh (dom (bytes σ)) := out]> (bytes σ) |}.
Proof.
  split; simpl; [|auto]. intros b data Hb.
  rewrite lookup_insert_ne; [exact Hb|].
  intros <-. apply (is_fresh (dom (bytes σ))). apply elem_of_dom. eauto.
Qed.

Lemma preserved_alloc_floats (σ : heap) (out : list Q) :
  preserved σ {| floats := <[fresh (dom (floats σ)) := out]> (floats σ); bytes := bytes σ |}.
Proof.
  split; simpl; [auto|]. intros b data Hb.
  rewrite lookup_insert_ne; [exact Hb|].
  intros <-. apply (is_fresh (dom (floats σ))). apply elem_of_dom. eauto.
Qed.

Lemma contents_uint8_Some (a : ndarray) (σ : heap) (pixels : list Z) :
  contents_uint8 a σ = Some pixels → is_Some (bytes σ !! base a).
Proof.
  unfold contents_uint8. destruct (bytes σ !! base a); [eauto | discriminate].
Qed.

(** An array whose buffer is kept holds the same tensor afterwards. *)
Lemma preserved_same_uint8 (a : ndarray) (σ τ : heap) :
  preserved σ τ → is_Some (bytes σ !! base a) → same_uint8 a τ a σ.
Proof.
  intros [Hb _] [data Hdata]. split; [repeat split|].
  now rewrite Hdata, (Hb _ _ Hdata).
Qed.

(** An OpenCV call leaves every existing buffer alone, and on the same
    tensor it yields the same tensor. *)
Lemma cv2_call_pure (f : list nat → list Z → option (list nat * list Z))
    (src : ndarray) (σ : heap) (dst : ndarray) (τ : heap) :
  cv2_call f src σ = Some (dst, τ) →
  preserved σ τ
  ∧ ∀ src' σ', same_uint8 src' σ' src σ →
      ∃ dst' τ', cv2_call f src' σ' = Some (dst', τ') ∧ same_uint8 dst' τ' dst τ.
Proof.
  unfold cv2_call. intros Hrun.
  destruct (contents_uint8 src σ) as [pixels|] eqn:Hpx; [|discriminate].
  simpl in Hrun. destruct (f (shape src) pixels) as [[s out]|] eqn:Hf; [|discriminate].
  simpl in Hrun. injection Hrun as <- <-. split; [apply preserved_alloc_bytes|].
  intros src' σ' Hsame. apply same_uint8_contents in Hsame as [Hs Hc].
  rewrite Hc, Hpx. simpl. rewrite Hs, Hf. simpl.
  eexists _, _. split; [reflexivity|].
  split; [repeat split|]. simpl. now rewrite !lookup_insert_eq.
Qed.

Lemma expand_dims0_same_uint8 (a a' : ndarray) (σ σ' : heap) :
  same_uint8 a σ a' σ' → same_uint8 (expand_dims0 a) σ (expand_dims0 a') σ'.
Proof.
  intros [(Ho & Hs & Hst) Hb]. split; [|exact Hb].
  unfold same_layout. simpl. now rewrite Ho, Hs, Hst.
Qed.

Lemma transpose_same_uint8 (axes : list nat) (a a' t : ndarray) (σ σ' : heap) :
  same_uint8 a' σ' a σ → transpose axes a = Some t →
  ∃ t', transpose axes a' = Some t' ∧ same_uint8 t' σ' t σ.
Proof.
  intros [(Ho & Hs & Hst) Hb] Hrun. unfold transpose in *. rewrite Hs, Hst.
  destruct (bool_decide _); [|discriminate].
  destruct (mapM (λ ax, shape a !! ax) axes) as [shape'|]; [|discriminate].
  destruct (mapM (λ ax, strides a !! ax) axes) as [strides'|]; [|discriminate].
  simpl in *. injection Hrun as <-. eexists. split; [reflexivity|].
  split; [repeat split; assumption | exact Hb].
Qed.

Lemma astype_float32_pure (a : ndarray) (σ : heap) (t : ndarray) (τ : heap) :
  astype_float32 a σ = Some (t, τ) →
  preserved σ τ
  ∧ ∀ a' σ', same_uint8 a' σ' a σ →
      ∃ t' τ', astype_float32 a' σ' = Some (t', τ') ∧ same_float t' τ' t τ.
Proof.
  unfold astype_float32. intros Hrun.
  destruct (contents_uint8 a σ) as [pixels|] eqn:Hpx; [|discriminate].
  simpl in Hrun. injection Hrun as <- <-. split; [apply preserved_alloc_floats|].
  intros a' σ' Hsame. apply same_uint8_contents in Hsame as [Hs Hc].
  rewrite Hc, Hpx. simpl. rewrite Hs.
  eexists _, _. split; [reflexivity|].
  split; [repeat split|]. simpl. now rewrite !lookup_insert_eq.
Qed.

Lemma cv2_call_reads (f : list nat → list Z → option (list nat * list Z))
    (src : ndarray) (σ : heap) (r : ndarray * heap) :
  cv2_call f src σ = Some r → is_Some (bytes σ !! base src).
Proof.
  unfold cv2_call. destruct (contents_uint8 src σ) as [pixels|] eqn:Hpx; [|discriminate].
  intros _. eapply contents_uint8_Some, Hpx.
Qed.

(** C4. Preprocessing is pure: it leaves every buffer that existed before
    as it was, the frame's among them, and run again on the same frame
    with the same target size it returns a tensor with the same shape and
    the same elements. This holds for the preprocessing of the
    super-resolution notebook and for that of the API notebook, whatever
    OpenCV computes from the pixels it reads. *)
Theorem preprocessing_pure
    (cvtColor_BGR2GRAY : list nat → list Z → option (list nat * list Z))
    (resize : nat * nat → list nat → list Z → option (list nat * list Z))
    (frame : ndarray) (width height : nat) (σ : heap) :
  (∀ tensor σ1,
     prepare_superresolution cvtColor_BGR2GRAY resize frame width height σ
       = Some (tensor, σ1) →
     preserved σ σ1
     ∧ contents_uint8 frame σ1 = contents_uint8 frame σ
     ∧ ∃ tensor' σ2,
         prepare_superresolution cvtColor_BGR2GRAY resize frame width height σ1
           = Some (tensor', σ2)
         ∧ shape tensor' = shape tensor
         ∧ contents_uint8 tensor' σ2 = contents_uint8 tensor σ1
         ∧ preserved σ1 σ2)
  ∧ (∀ tensor σ1,
     prepare_api resize frame width height σ = Some (tensor, σ1) →
     preserved σ σ1
     ∧ contents_uint8 frame σ1 = contents_uint8 frame σ
     ∧ ∃ tensor' σ2,
         prepare_api resize frame width height σ1 = Some (tensor', σ2)
         ∧ shape tensor' = shape tensor
         ∧ contents_float tensor' σ2 = contents_float tensor σ1
         ∧ preserved σ1 σ2).
Proof.
  split; intros tensor σ1 Hrun.
  - unfold prepare_superresolution, bgr_to_gray in *.
    destruct (cv2_call cvtColor_BGR2GRAY frame σ) as [[gray σa]|] eqn:Hgray;
      [|discriminate]. simpl in Hrun.
    destruct (cv2_call (resize (width, height)) gray σa) as [[resized σb]|] eqn:Hres;
      [|discriminate]. simpl in Hrun. injection Hrun as <- <-.
    pose proof (cv2_call_reads _ _ _ _ Hgray) as Hframe.
    apply cv2_call_pure in Hgray as [Hp1 Hsame1].
    apply cv2_call_pure in Hres as [Hp2 Hsame2].
    pose proof (preserved_trans _ _ _ Hp1 Hp2) as Hp.
    pose proof (preserved_same_uint8 frame σ σb Hp Hframe) as Hsame.
    split; [exact Hp|]. split; [apply (same_uint8_contents _ _ _ _ Hsame)|].
    destruct (Hsame1 _ _ Hsame) as (gray' & σa' & Hgray' & Hg).
    destruct (Hsame2 _ _ Hg) as (resized' & σb' & Hres' & Hr).
    rewrite Hgray'. simpl. rewrite Hres'. simpl.
    eexists _, _. split; [reflexivity|].
    pose proof (expand_dims0_same_uint8 _ _ _ _
                  (expand_dims0_same_uint8 _ _ _ _ Hr)) as Ht.
    apply same_uint8_contents in Ht as [Hshape Hcontents].
    split; [exact Hshape|]. split; [exact Hcontents|].
    apply cv2_call_pure in Hgray' as [Hp1' _].
    apply cv2_call_pure in Hres' as [Hp2' _].
    exact (preserved_trans _ _ _ Hp1' Hp2').
  - unfold prepare_api in *.
    destruct (cv2_call (resize (width, height)) frame σ) as [[resized σa]|] eqn:Hres;
      [|discriminate]. simpl in Hrun.
    destruct (transpose [2; 0; 1] resized) as [transposed|] eqn:Htr; [|discriminate].
    simpl in Hrun.
    pose proof (cv2_call_reads _ _ _ _ Hres) as Hframe.
    apply cv2_call_pure in Hres as [Hp1 Hsame1].
    apply astype_float32_pure in Hrun as [Hp2 Hsame2].
    pose proof (preserved_trans _ _ _ Hp1 Hp2) as Hp.
    pose proof (preserved_same_uint8 frame σ σ1 Hp Hframe) as Hsame.
    split; [exact Hp|]. split; [apply (same_uint8_contents _ _ _ _ Hsame)|].
    destruct (Hsame1 _ _ Hsame) as (resized' & σa' & Hres' & Hr).
    destruct (transpose_same_uint8 _ _ _ _ _ _ Hr Htr) as (transposed' & Htr' & Ht).
    destruct (Hsame2 _ _ (expand_dims0_same_uint8 _ _ _ _ Ht))
      as (tensor' & σ2 & Hrun' & Hf).
    rewrite Hres'. simpl. rewrite Htr'. simpl. rewrite Hrun'.
    eexists _, _. split; [reflexivity|].
    apply same_float_contents in Hf as [Hshape Hcontents].
    split; [exact Hshape|]. split; [exact Hcontents|].
    apply cv2_call_pure in Hres' as [Hp1' _].
    apply astype_float32_pure in Hrun' as [Hp2' _].
    exact (preserved_trans _ _ _ Hp1' Hp2').
Qed.

(** Stand-ins for the two OpenCV functions, to run the preprocessing on an
    example: a weighted sum of the three channels, and nearest-neighbour
    sampling. *)
Definition example_gray (s : list nat) (pixels : list Z) : option (list nat * list Z) :=
  match s with
  | [H; W; 3] =>
      Some ([H; W],
            (λ i : nat, (114 * default 0 (pixels !! (3 * i)%nat)
                         + 587 * default 0 (pixels !! (3 * i + 1)%nat)
                         + 299 * default 0 (pixels !! (3 * i + 2)%nat)) / 1000)%Z
              <$> seq 0 (H * W))
  | _ => None
  end.

Definition example_resize (dsize : nat * nat) (s : list nat) (pixels : list Z)
  : option (list nat * list Z) :=
  let '(width, height) := dsize in
  match s with
  | H :: W :: channels =>
      if bool_decide (H = 0 ∨ W = 0 ∨ width = 0 ∨ height = 0) then None
      else
        Some (height :: width :: channels,
              i ← seq 0 height; j ← seq 0 width; k ← seq 0 (size channels);
              [default 0%Z
                 (pixels !! (((i * H / height) * W + j * W / width) * size channels + k))])
  | _ => None
  end.

(** A frame of two rows and two columns in B, G, R order. *)
Definition example_frame_heap : heap :=
  {| floats := ∅;
     bytes := {[ 0 := [255; 255; 255;  0; 0; 0;  10; 20; 30;  200; 100; 50]%Z ]} |}.

Example prepare_superresolution_example :
  (prepare_superresolution example_gray example_resize (uint8_array 0 [2; 2; 3]) 4 2
     example_frame_heap
     ≫= λ '(tensor, σ'), pixels ← contents_uint8 tensor σ';
                          Some (shape tensor, pixels, bytes σ' !! 0))
  = Some ([1; 1; 2; 4], [255; 255; 0; 0; 21; 21; 96; 96]%Z,
          Some [255; 255; 255;  0; 0; 0;  10; 20; 30;  200; 100; 50]%Z).
Proof. vm_compute. reflexivity. Qed.

Example prepare_api_example :
  (prepare_api example_resize (uint8_array 0 [2; 2; 3]) 1 2 example_frame_heap
     ≫= λ '(tensor, σ'), values ← contents_float tensor σ';
                          Some (shape tensor, values))
  = Some ([1; 3; 2; 1], [255; 10; 255; 20; 255; 30]%Q).
Proof. vm_compute. reflexivity. Qed.

(** *** The tensors the preprocessing returns *)

(** Reading a view whose positions all lie in its buffer. *)
Lemma contents_uint8_lookup (a : ndarray) (σ : heap) (data : list Z) :
  bytes σ !! base a = Some data →
  (∀ idx, Forall2 lt idx (shape a) → address a idx < length data) →
  ∃ pixels,
    contents_uint8 a σ = Some pixels
    ∧ ∀ idx, Forall2 lt idx (shape a) →
        pixels !! ravel (shape a) idx = data !! address a idx.
Proof.
  intros Hdata Hrange. unfold contents_uint8. rewrite Hdata. simpl.
  destruct (mapM_is_Some_2 (λ ad, data !! ad) (addresses a)) as [pixels Hpx].
  { apply Forall_forall. intros ad Had. unfold addresses in Had.
    apply list_elem_of_fmap in Had as (idx & -> & Hidx).
    apply elem_of_ndindex in Hidx. apply lookup_lt_is_Some_2. auto. }
  exists pixels. split; [exact Hpx|].
  intros idx Hidx. apply mapM_Some_1 in Hpx.
  destruct (lookup_ndindex_ravel _ _ Hidx) as [Hpos _].
  destruct (Forall2_lookup_l _ _ _ (ravel (shape a) idx) (address a idx) Hpx)
    as (y & Hy & Hdy).
  { unfold addresses. now rewrite list_lookup_fmap, Hpos. }
  now rewrite Hy, Hdy.
Qed.





(** X9. The tensor of the API notebook: when OpenCV resizes the image to [H]
    rows of [W] pixels with [C] channels, the tensor has shape (1, C, H, W)
    and its element (0, c, i, j) is channel [c] of the resized pixel
    (i, j), as a float. *)
Theorem api_input_tensor
    (resize : nat * nat → list nat → list Z → option (list nat * list Z))
    (image : ndarray) (C H W : nat) (σ : heap) (pixels resized : list Z) :
  contents_uint8 image σ = Some pixels →
  resize (W, H) (shape image) pixels = Some ([H; W; C], resized) →
  length resized = H * W * C →
  ∃ input_data σ',
    prepare_api resize image W H σ = Some (input_data, σ')
    ∧ shape input_data = [1; C; H; W]
    ∧ ∀ c i j, c < C → i < H → j < W →
        getitem_float input_data [0; c; i; j] σ'
        = inject_Z <$> resized !! ((i * W + j) * C + c).
Proof.
  intros Hpx Hres Hlen.
  unfold prepare_api, cv2_call. rewrite Hpx. simpl. rewrite Hres. simpl.
  set (b := fresh (dom (bytes σ))).
  set (σa := {| floats := floats σ; bytes := <[b := resized]> (bytes σ) |}).
  set (view := expand_dims0 {| base := b; offset := 0; shape := [C; H; W];
                               strides := [1; W * (C * 1); C * 1] |}).
  change (transpose [2; 0; 1] (uint8_array b [H; W; C]) ≫= λ t, astype_float32 (expand_dims0 t) σa)
    with (astype_float32 view σa).
  assert (Haddr : ∀ c i j, address view [0; c; i; j] = (i * W + j) * C + c).
  { intros c i j. unfold address. simpl. lia. }
  destruct (contents_uint8_lookup view σa resized) as (px & Hcontents & Hlookup).
  { simpl. apply lookup_insert_eq. }
  { intros idx Hidx. simpl in Hidx.
    inversion Hidx as [|n ? tl0 ? Hn Hf0]; subst.
    inversion Hf0 as [|c ? tl1 ? Hc Hf1]; subst.
    inversion Hf1 as [|i ? tl2 ? Hi Hf2]; subst.
    inversion Hf2 as [|j ? tl3 ? Hj Hf3]; subst.
    inversion Hf3; subst. assert (n = 0) as -> by lia.
    rewrite Haddr, Hlen.
    pose proof (Nat.mul_le_mono_r (i + 1) H W ltac:(lia)).
    pose proof (Nat.mul_le_mono_r (i * W + j + 1) (H * W) C ltac:(lia)).
    lia. }
  unfold astype_float32. rewrite Hcontents. simpl.
  eexists _, _. split; [reflexivity|]. split; [reflexivity|].
  intros c i j Hc Hi Hj.
  assert (Hidx : Forall2 lt [0; c; i; j] [1; C; H; W]) by (repeat constructor; lia).
  unfold getitem_float, getitem, valid_index. simpl shape.
  rewrite bool_decide_eq_true_2 by exact Hidx.
  simpl. rewrite lookup_insert_eq. simpl.
  specialize (Hlookup [0; c; i; j] Hidx). rewrite Haddr in Hlookup.
  unfold address. simpl offset. simpl strides. rewrite Nat.add_0_l.
  change (sum_list (zip_with Nat.mul [0; c; i; j]
                      [C * (H * (W * 1)); H * (W * 1); W * 1; 1]))
    with (ravel [1; C; H; W] [0; c; i; j]).
  rewrite list_lookup_fmap. change (shape view) with [1; C; H; W] in Hlookup.
  now rewrite Hlookup.
Qed.

Lemma api_input_tensor_witness :
  ∃ input_data σ',
    prepare_api example_resize (uint8_array 0 [2; 2; 3]) 1 2 example_frame_heap
      = Some (input_data, σ')
    ∧ shape input_data = [1; 3; 2; 1]
    ∧ ∀ c i j, c < 3 → i < 2 → j < 1 →
        getitem_float input_data [0; c; i; j] σ'
        = inject_Z <$> [255; 255; 255; 10; 20; 30]%Z !! ((i * 1 + j) * 3 + c).
Proof.
  apply (api_input_tensor example_resize (uint8_array 0 [2; 2; 3]) 3 2 1
           example_frame_heap
           [255; 255; 255;  0; 0; 0;  10; 20; 30;  200; 100; 50]%Z);
    reflexivity.
Defined.

End Preprocess.

(** ** The model's shapes in the super-resolution notebook *)

Module ModelShapes.

#[local] Open Scope Z_scope.

(** [height, width = list(layer.shape)[2:]]: the slice must hold exactly two
    values ([None] stands for [ValueError]). *)
Definition spatial (shape : list Z) : option (Z * Z) :=
  match drop 2 shape with
  | [height; width] => Some (height, width)
  | _ => None
  end.

(** [a / b] on integers ([None] stands for [ZeroDivisionError]); the
    quotient is exact. *)
Definition true_div (a b : Z) : option Q :=
  if b =? 0 then None else Some (inject_Z a / inject_Z b)%Q.

(** [int(x)]: the fractional part is dropped. *)
Definition int (x : Q) : Z := Z.quot (Qnum x) (Z.pos (Qden x)).

(** [upsample_factor = int(target_height / input_height)], with the heights
    taken from the shapes of the input and the output layer. *)
Definition upsample_factor (input_shape output_shape : list Z) : option Z :=
  '(input_height, input_width) ← spatial input_shape;
  '(target_height, target_width) ← spatial output_shape;
  quotient ← true_div target_height input_height;
  Some (int quotient).




(** The default model: sides three times as long. *)
Example upsample_factor_default :
  upsample_factor [1; 1; 360; 640] [1; 1; 1080; 1920] = Some 3.
Proof. reflexivity. Qed.

(** The factor is read from the heights alone and rounded down. *)
Example upsample_factor_from_height_only :
  upsample_factor [1; 1; 360; 640] [1; 1; 1000; 1280] = Some 2.
Proof. reflexivity. Qed.

End ModelShapes.

(** ** The live-inference pipeline

    [show_live_inference] itself is not among the notebook sources (the
    notebook imports it from [notebook_utils]); the pipeline it runs is
    taken from the design document: a pool of [N] slots, a cursor and a
    reorder buffer. *)

Module Pipeline.

#[local] Close Scope string_scope.

(** What the scheduler does when the engine fails a request. *)
Inductive policy := FailFast | SkipAndContinue.

Inductive status :=
  | Running
  | Finished
  | Aborted (k : nat).

(** The figure the throughput reporter prints. *)
Inductive fps :=
  | Fps (frames_per_second : Q)
  | Undefined.

(** Modelled from the spec: the Throughput Reporter divides the number of
    frames by the elapsed wall-time; without elapsed time the figure is
    undefined. *)
Definition throughput (frame_count : nat) (start stop : Q) : fps :=
  let elapsed := (stop - start)%Q in
  if Qle_bool elapsed 0 then Undefined
  else Fps (inject_Z (Z.of_nat frame_count) / elapsed)%Q.

Section Scheduler.

Context {Frame Tensor Result : Type}.

(** The preprocessor and the inference engine ([None]: [InferenceFailure]). *)
Variable prepare : Frame → Tensor.
Variable infer : Tensor → option Result.

(** The concurrency bound, the failure policy and the frames of the source
    in index order. *)
Variable N : nat.
Variable on_failure : policy.
Variable frames : list Frame.

(** Modelled from the spec: the slot state machine
    [Idle -> Submitted -> Completed -> Idle] of the Pipeline Scheduler; a
    slot that is not idle is bound to a Frame index. *)
Inductive slot :=
  | Idle
  | Submitted (k : nat) (input : Tensor)
  | Completed (k : nat) (outcome : option Result).

(** Modelled from the spec: the scheduler state (slot table, Frame Source
    position, emit cursor, reorder buffer) together with what the run has
    shown so far: the render calls in the order they were made and the
    frames dropped under skip-and-continue. A buffered [None] marks a
    failed frame the cursor has yet to pass. *)
Record sched := mk_sched {
  run_status : status;
  slots : list slot;
  next_frame : nat;
  cursor : nat;
  buffer : gmap nat (option Result);
  rendered : list (nat * Result);
  dropped : list nat
}.

Definition init : sched :=
  {| run_status := Running; slots := replicate N Idle; next_frame := 0; cursor := 0;
     buffer := ∅; rendered := []; dropped := [] |}.

Definition is_idle (sl : slot) : bool :=
  match sl with Idle => true | _ => false end.

Definition is_submitted (sl : slot) : bool :=
  match sl with Submitted _ _ => true | _ => false end.

Definition is_completed (sl : slot) : bool :=
  match sl with Completed _ _ => true | _ => false end.

(** The slots that satisfy [p], by slot id. *)
Fixpoint positions (p : slot → bool) (l : list slot) : list nat :=
  match l with
  | [] => []
  | sl :: l' => (if p sl then [0] else []) ++ (S <$> positions p l')
  end.

(** The Frame indices bound to a slot (the requests in flight). *)
Fixpoint in_flight (l : list slot) : list nat :=
  match l with
  | [] => []
  | Idle :: l' => in_flight l'
  | Submitted k _ :: l' => k :: in_flight l'
  | Completed k _ :: l' => k :: in_flight l'
  end.

Definition with_slots (l : list slot) (s : sched) : sched :=
  {| run_status := run_status s; slots := l; next_frame := next_frame s;
     cursor := cursor s; buffer := buffer s; rendered := rendered s;
     dropped := dropped s |}.

Definition with_status (st : status) (s : sched) : sched :=
  {| run_status := st; slots := slots s; next_frame := next_frame s;
     cursor := cursor s; buffer := buffer s; rendered := rendered s;
     dropped := dropped s |}.

Definition with_buffer (b : gmap nat (option Result)) (s : sched) : sched :=
  {| run_status := run_status s; slots := slots s; next_frame := next_frame s;
     cursor := cursor s; buffer := b; rendered := rendered s;
     dropped := dropped s |}.

(** Modelled from the spec: step 1 of the Pipeline Scheduler, for one
    frame: pull the next Frame, preprocess it and submit it on an idle slot. *)
Definition submit (i : nat) (f : Frame) (s : sched) : sched :=
  {| run_status := run_status s;
     slots := <[i := Submitted (next_frame s) (prepare f)]> (slots s);
     next_frame := S (next_frame s);
     cursor := cursor s; buffer := buffer s; rendered := rendered s;
     dropped := dropped s |}.

(** Modelled from the spec: step 2, the engine completes the request of a
    submitted slot. *)
Definition complete (i : nat) (s : sched) : sched :=
  match slots s !! i with
  | Some (Submitted k input) => with_slots (<[i := Completed k (infer input)]> (slots s)) s
  | _ => s
  end.

(** Modelled from the spec: the Frame at the cursor is delivered: rendered,
    or logged as dropped when it failed; the cursor advances. *)
Definition emit (o : option Result) (s : sched) : sched :=
  {| run_status := run_status s; slots := slots s; next_frame := next_frame s;
     cursor := S (cursor s);
     buffer := buffer s;
     rendered := match o with
                 | Some r => rendered s ++ [(cursor s, r)]
                 | None => rendered s
                 end;
     dropped := match o with
                | Some _ => dropped s
                | None => dropped s ++ [cursor s]
                end |}.

(** Modelled from the spec: after a delivery, the results that already wait
    in the reorder buffer are delivered in index order. *)
Fixpoint flush (fuel : nat) (s : sched) : sched :=
  match fuel with
  | 0 => s
  | S fuel' =>
      match buffer s !! cursor s with
      | Some o => flush fuel' (emit o (with_buffer (delete (cursor s) (buffer s)) s))
      | None => s
      end
  end.

(** Modelled from the spec: step 3 of the Pipeline Scheduler with its
    failure semantics: on completion of slot [i] bound to Frame [k], a
    failure under fail-fast aborts the run with [k]; otherwise the outcome is
    delivered when [k] is the cursor and buffered when it is not; the slot
    becomes idle. *)
Definition handle (i k : nat) (o : option Result) (s : sched) : sched :=
  match o, on_failure with
  | None, FailFast => with_status (Aborted k) s
  | _, _ =>
      let s := with_slots (<[i := Idle]> (slots s)) s in
      if decide (k = cursor s) then flush (size (buffer s)) (emit o s)
      else with_buffer (<[k := o]> (buffer s)) s
  end.

(** Modelled from the spec: one action of the Pipeline Scheduler. A
    completed slot is handled first (step 3); else a frame is submitted while
    frames remain and a slot is idle (step 1); else the scheduler waits for a
    submitted slot to complete (step 2), [choice] saying which one the
    engine finishes first; with nothing left it terminates (step 4). *)
Definition step (choice : nat) (s : sched) : sched :=
  match run_status s with
  | Running =>
      match positions is_completed (slots s) with
      | i :: _ =>
          match slots s !! i with
          | Some (Completed k o) => handle i k o s
          | _ => s
          end
      | [] =>
          match frames !! next_frame s, positions is_idle (slots s) with
          | Some f, i :: _ => submit i f s
          | source, _ =>
              let waiting := positions is_submitted (slots s) in
              match waiting !! (choice mod length waiting) with
              | Some i => complete i s
              | None =>
                  match source with
                  | None =>
                      if (size (buffer s) =? 0)%nat then with_status Finished s else s
                  | Some _ => s
                  end
              end
          end
      end
  | _ => s
  end.

(** The state after [n] actions; [oracle] gives the engine's choice at each. *)
Fixpoint exec (oracle : nat → nat) (n : nat) : sched :=
  match n with
  | 0 => init
  | S n' => step (oracle n') (exec oracle n')
  end.

(** Actions after which every run has ended. *)
Definition enough_steps : nat := 3 * length frames + 1.

Definition run (oracle : nat → nat) : sched := exec oracle enough_steps.

Definition submitted_count (s : sched) : nat := length (positions is_submitted (slots s)).

(** Requests that have completed: delivered, buffered, or being handled. *)
Definition completed_count (s : sched) : nat :=
  cursor s + size (buffer s) + length (positions is_completed (slots s)).

Definition render_calls (s : sched) : list nat := fst <$> rendered s.

(** What the engine answers for the Frame with index [k]. *)
Definition outcome (k : nat) : option Result :=
  frames !! k ≫= λ f, infer (prepare f).

(** The Frame index a slot is bound to. *)
Definition bound (sl : slot) : option nat :=
  match sl with
  | Idle => None
  | Submitted k _ => Some k
  | Completed k _ => Some k
  end.

(** *** Slot tables *)

Lemma elem_of_positions (p : slot → bool) (l : list slot) (i : nat) :
  i ∈ positions p l ↔ ∃ sl, l !! i = Some sl ∧ p sl = true.
Proof.
  revert i; induction l as [|sl l IH]; intros i; simpl.
  - split; [intros H; inversion H | intros (? & H & _); discriminate].
  - rewrite elem_of_app, list_elem_of_fmap. split.
    + intros [H|(j & -> & Hj)].
      * destruct (p sl) eqn:E; [|inversion H].
        apply list_elem_of_singleton in H as ->. eauto.
      * apply IH in Hj. exact Hj.
    + intros (sl' & Hi & Hp). destruct i as [|i]; simpl in Hi.
      * injection Hi as ->. rewrite Hp. left. now left.
      * right. exists i. split; [reflexivity|]. apply IH. eauto.
Qed.

Lemma positions_nil (p : slot → bool) (l : list slot) (i : nat) (sl : slot) :
  positions p l = [] → l !! i = Some sl → p sl = false.
Proof.
  intros Hnil Hi. destruct (p sl) eqn:E; [|reflexivity].
  assert (Hin : i ∈ positions p l) by (apply elem_of_positions; eauto).
  rewrite Hnil in Hin. inversion Hin.
Qed.

Lemma length_positions_le (p : slot → bool) (l : list slot) :
  length (positions p l) ≤ length l.
Proof.
  induction l as [|sl l IH]; simpl; [lia|].
  rewrite length_app, length_fmap. destruct (p sl); simpl; lia.
Qed.

(** Replacing the slot at [i] moves it from one class to another. *)
Lemma length_positions_insert (p : slot → bool) (l : list slot) (i : nat) (old new : slot) :
  l !! i = Some old →
  length (positions p (<[i := new]> l)) + (if p old then 1 else 0)
  = length (positions p l) + (if p new then 1 else 0).
Proof.
  revert i; induction l as [|sl l IH]; intros i Hi; [discriminate|].
  destruct i as [|i]; simpl in *.
  - injection Hi as ->. rewrite !length_app, !length_fmap.
    destruct (p old), (p new); simpl; lia.
  - rewrite !length_app, !length_fmap. specialize (IH i Hi). lia.
Qed.

Lemma in_flight_omap (l : list slot) : in_flight l = omap bound l.
Proof.
  induction l as [|[| |] l IH]; cbn; rewrite ?IH; reflexivity.
Qed.

Lemma length_in_flight (l : list slot) :
  length (in_flight l)
  = length (positions is_submitted l) + length (positions is_completed l).
Proof.
  induction l as [|[| |] l IH]; simpl; rewrite ?length_fmap in *; lia.
Qed.

Lemma elem_of_in_flight (l : list slot) (k : nat) :
  k ∈ in_flight l ↔ ∃ i sl, l !! i = Some sl ∧ bound sl = Some k.
Proof.
  rewrite in_flight_omap, list_elem_of_omap. split.
  - intros (sl & Hsl & Hb). apply list_elem_of_lookup in Hsl as [i Hi]. eauto.
  - intros (i & sl & Hi & Hb). exists sl. split; [|exact Hb].
    eapply list_elem_of_lookup_2, Hi.
Qed.

Lemma in_flight_insert (l : list slot) (i : nat) (old new : slot) :
  l !! i = Some old →
  option_list (bound old) ++ in_flight (<[i := new]> l)
  ≡ₚ option_list (bound new) ++ in_flight l.
Proof.
  rewrite !in_flight_omap.
  revert i; induction l as [|sl l IH]; intros i Hi; [discriminate|].
  destruct i as [|i]; simpl in *.
  - injection Hi as ->. destruct (bound old), (bound new); simpl; try reflexivity.
    apply Permutation_swap.
  - specialize (IH i Hi). destruct (bound sl) as [k|]; simpl; [|exact IH].
    rewrite <- !Permutation_middle. now constructor.
Qed.

(** *** The scheduler invariant *)

Definition slot_ok (s : sched) (sl : slot) : Prop :=
  match sl with
  | Idle => True
  | Submitted k input =>
      cursor s ≤ k < next_frame s ∧ prepare <$> frames !! k = Some input
  | Completed k o => cursor s ≤ k < next_frame s ∧ o = outcome k
  end.

Record Inv (s : sched) : Prop := {
  inv_slots : length (slots s) = N;
  inv_next : next_frame s ≤ length frames;
  inv_bound : ∀ i sl, slots s !! i = Some sl → slot_ok s sl;
  inv_nodup : NoDup (in_flight (slots s));
  inv_disjoint : ∀ k, k ∈ in_flight (slots s) → buffer s !! k = None;
  inv_buffer : ∀ k o, buffer s !! k = Some o →
    cursor s ≤ k < next_frame s ∧ o = outcome k ∧ (on_failure = FailFast → is_Some o);
  inv_cover : ∀ k, cursor s ≤ k < next_frame s →
    k ∈ in_flight (slots s) ∨ is_Some (buffer s !! k);
  inv_count : next_frame s = cursor s + size (buffer s) + length (in_flight (slots s));
  inv_rendered : rendered s = omap (λ k, pair k <$> outcome k) (seq 0 (cursor s));
  inv_failfast : on_failure = FailFast → ∀ k, k < cursor s → is_Some (outcome k);
  inv_status :
    match run_status s with
    | Running => True
    | Finished => cursor s = length frames ∧ next_frame s = length frames
    | Aborted k =>
        on_failure = FailFast ∧ cursor s ≤ k < next_frame s ∧ outcome k = None
        ∧ k ∈ in_flight (slots s)
    end
}.

(** Between two actions nothing waits in the buffer at the cursor. *)
Definition Settled (s : sched) : Prop := Inv s ∧ buffer s !! cursor s = None.

Lemma in_flight_replicate_idle (n : nat) : in_flight (replicate n Idle) = [].
Proof. induction n; simpl; auto. Qed.

Lemma init_settled : Settled init.
Proof.
  split; [|apply lookup_empty].
  constructor; simpl; rewrite ?in_flight_replicate_idle.
  - apply length_replicate.
  - lia.
  - intros i sl Hi. apply lookup_replicate in Hi as [-> _]. exact I.
  - constructor.
  - intros k Hk. inversion Hk.
  - intros k o Hk. now rewrite lookup_empty in Hk.
  - intros k Hk. lia.
  - now rewrite map_size_empty.
  - reflexivity.
  - intros _ k Hk. lia.
  - exact I.
Qed.

Lemma slot_ok_mono (s s' : sched) (sl : slot) :
  cursor s' = cursor s → next_frame s ≤ next_frame s' → slot_ok s sl → slot_ok s' sl.
Proof.
  intros Hc Hn. destruct sl; simpl; rewrite ?Hc; intuition lia.
Qed.

Lemma submit_settled (s : sched) (i : nat) (f : Frame) :
  Settled s → run_status s = Running →
  frames !! next_frame s = Some f → slots s !! i = Some Idle →
  Settled (submit i f s).
Proof.
  intros [HI Hcur] Hrun Hf Hi. destruct HI.
  pose proof (lookup_lt_Some _ _ _ Hf) as Hlt.
  pose proof (in_flight_insert _ _ _ (Submitted (next_frame s) (prepare f)) Hi) as Hperm.
  simpl in Hperm.
  assert (Hfresh : next_frame s ∉ in_flight (slots s)).
  { intros Hin. apply elem_of_in_flight in Hin as (j & sl & Hj & Hb).
    specialize (inv_bound0 j sl Hj). destruct sl; simpl in *; simplify_eq; lia. }
  split; [|exact Hcur].
  constructor; simpl.
  - now rewrite length_insert.
  - lia.
  - intros j sl Hj. apply list_lookup_insert_Some in Hj as [(-> & <- & _)|[_ Hj]].
    + simpl. split; [lia|]. now rewrite Hf.
    + eapply (slot_ok_mono s); [reflexivity | simpl; lia | eauto].
  - rewrite Hperm. now constructor.
  - intros k Hk. rewrite Hperm in Hk. apply elem_of_cons in Hk as [->|Hk]; [|auto].
    destruct (buffer s !! next_frame s) as [o|] eqn:E; [|reflexivity].
    apply inv_buffer0 in E. lia.
  - intros k o Hk. apply inv_buffer0 in Hk. intuition lia.
  - intros k Hk. rewrite Hperm.
    destruct (decide (k = next_frame s)) as [->|Hne]; [left; now left|].
    destruct (inv_cover0 k) as [H|H]; [lia | left; now right | now right].
  - rewrite Hperm. simpl. lia.
  - exact inv_rendered0.
  - exact inv_failfast0.
  - now rewrite Hrun.
Qed.

Lemma complete_settled (s : sched) (i : nat) :
  Settled s → run_status s = Running → Settled (complete i s).
Proof.
  intros [HI Hcur] Hrun. unfold complete.
  destruct (slots s !! i) as [[|k input|]|] eqn:Hi; try (split; assumption).
  destruct HI as [Hslots Hnext Hbound Hnodup Hdisj Hbuf Hcover Hcount Hrend Hff Hstat].
  pose proof (in_flight_insert _ _ _ (Completed k (infer input)) Hi) as Hperm.
  simpl in Hperm. apply Permutation_cons_inv in Hperm.
  split; [|exact Hcur].
  constructor; simpl; rewrite ?Hperm; try assumption.
  - now rewrite length_insert.
  - intros j sl Hj. apply list_lookup_insert_Some in Hj as [(-> & <- & _)|[_ Hj]].
    + destruct (Hbound _ _ Hi) as [Hk Hin]. split; [exact Hk|].
      unfold outcome. destruct (frames !! k); simplify_eq/=. reflexivity.
    + apply (Hbound _ _ Hj).
  - intros k' Hk'. rewrite Hperm in Hk'. auto.
  - intros k' Hk'. rewrite Hperm. auto.
  - now rewrite Hrun.
Qed.

Lemma size_delete_lt (m : gmap nat (option Result)) (k : nat) :
  is_Some (m !! k) → S (size (delete k m)) = size m.
Proof.
  intros Hk. rewrite map_size_delete_Some by assumption.
  destruct (size m) eqn:E; [|reflexivity].
  apply map_size_empty_inv in E. subst m.
  destruct Hk as [? Hk]. now rewrite lookup_empty in Hk.
Qed.

Lemma rendered_emit (s : sched) (o : option Result) :
  rendered s = omap (λ k, pair k <$> outcome k) (seq 0 (cursor s)) →
  o = outcome (cursor s) →
  rendered (emit o s) = omap (λ k, pair k <$> outcome k) (seq 0 (S (cursor s))).
Proof.
  intros Hrend ->. rewrite seq_S, omap_app. simpl.
  destruct (outcome (cursor s)); simpl; rewrite Hrend, ?app_nil_r; reflexivity.
Qed.

(** The completed request of the Frame at the cursor: its slot is freed and
    its outcome delivered. *)
Lemma deliver_inv (s : sched) (i : nat) (o : option Result) :
  Settled s → run_status s = Running →
  slots s !! i = Some (Completed (cursor s) o) →
  (on_failure = FailFast → is_Some o) →
  Inv (emit o (with_slots (<[i := Idle]> (slots s)) s)).
Proof.
  intros [[Hslots Hnext Hbound Hnodup Hdisj Hbuf Hcover Hcount Hrend Hff Hstat] Hcur]
         Hrun Hi Hsome.
  pose proof (in_flight_insert _ _ _ Idle Hi) as Hperm. simpl in Hperm.
  rewrite <- Hperm in Hnodup. apply NoDup_cons in Hnodup as [Hnotin Hnodup].
  destruct (Hbound _ _ Hi) as [Hrange Ho].
  assert (Hlater : ∀ k, k ∈ in_flight (<[i := Idle]> (slots s)) →
                     S (cursor s) ≤ k ∧ k ∈ in_flight (slots s)).
  { intros k Hk. assert (Hk' : k ∈ in_flight (slots s)) by (rewrite <- Hperm; now right).
    split; [|exact Hk'].
    apply elem_of_in_flight in Hk' as (j & sl & Hj & Hb).
    specialize (Hbound _ _ Hj).
    assert (k ≠ cursor s) by (intros ->; contradiction).
    destruct sl; simpl in *; simplify_eq; lia. }
  constructor; simpl.
  - now rewrite length_insert.
  - exact Hnext.
  - intros j sl Hj. apply list_lookup_insert_Some in Hj as [(-> & <- & _)|[Hne Hj]];
      [exact I|].
    pose proof (Hbound _ _ Hj) as Hok.
    assert (Hb : ∀ k, bound sl = Some k → S (cursor s) ≤ k).
    { intros k Hk. apply Hlater, elem_of_in_flight. exists j, sl.
      split; [|exact Hk]. now rewrite list_lookup_insert_ne. }
    destruct sl as [|k input|k o']; simpl in *; [exact I| |];
      specialize (Hb k eq_refl); intuition lia.
  - exact Hnodup.
  - intros k Hk. apply Hdisj, Hlater, Hk.
  - intros k o' Hk. destruct (Hbuf _ _ Hk) as (Hr & Ho' & Hs).
    assert (k ≠ cursor s) by (intros ->; congruence).
    split; [lia | auto].
  - intros k Hk. destruct (Hcover k) as [Hin|Hin]; [lia | | now right].
    rewrite <- Hperm in Hin. apply elem_of_cons in Hin as [->|Hin]; [lia | now left].
  - rewrite Hcount, <- Hperm. simpl. lia.
  - apply (rendered_emit (with_slots (<[i := Idle]> (slots s)) s)); assumption.
  - intros Hp k Hk. destruct (decide (k = cursor s)) as [->|Hne].
    + rewrite <- Ho. auto.
    + apply Hff; [exact Hp | lia].
  - now rewrite Hrun.
Qed.

(** A result that waits in the buffer at the cursor is delivered. *)
Lemma flush_step_inv (s : sched) (o : option Result) :
  Inv s → run_status s = Running → buffer s !! cursor s = Some o →
  Inv (emit o (with_buffer (delete (cursor s) (buffer s)) s)).
Proof.
  intros [Hslots Hnext Hbound Hnodup Hdisj Hbuf Hcover Hcount Hrend Hff Hstat] Hrun Hcur.
  destruct (Hbuf _ _ Hcur) as (Hrange & Ho & Hsome).
  assert (Hlater : ∀ k, k ∈ in_flight (slots s) → k ≠ cursor s).
  { intros k Hk ->. apply Hdisj in Hk. congruence. }
  constructor; simpl.
  - exact Hslots.
  - exact Hnext.
  - intros j sl Hj. pose proof (Hbound _ _ Hj) as Hok.
    assert (Hb : ∀ k, bound sl = Some k → k ≠ cursor s).
    { intros k Hk. apply Hlater, elem_of_in_flight. eauto. }
    destruct sl as [|k input|k o']; simpl in *; [exact I| |];
      specialize (Hb k eq_refl); intuition lia.
  - exact Hnodup.
  - intros k Hk. rewrite lookup_delete_ne by (apply not_eq_sym, Hlater, Hk).
    apply Hdisj, Hk.
  - intros k o' Hk. apply lookup_delete_Some in Hk as [Hne Hk].
    destruct (Hbuf _ _ Hk) as (Hr & Ho' & Hs). split; [lia | auto].
  - intros k Hk. destruct (Hcover k) as [Hin|Hin]; [lia | now left | right].
    rewrite lookup_delete_ne by lia. exact Hin.
  - rewrite Hcount. rewrite <- (size_delete_lt (buffer s) (cursor s)) by eauto. lia.
  - apply (rendered_emit (with_buffer (delete (cursor s) (buffer s)) s)); assumption.
  - intros Hp k Hk. destruct (decide (k = cursor s)) as [->|Hne].
    + rewrite <- Ho. auto.
    + apply Hff; [exact Hp | lia].
  - now rewrite Hrun.
Qed.

Lemma flush_status (fuel : nat) (s : sched) :
  run_status (flush fuel s) = run_status s
  ∧ slots (flush fuel s) = slots s
  ∧ next_frame (flush fuel s) = next_frame s.
Proof.
  revert s; induction fuel as [|fuel IH]; intros s; simpl; [auto|].
  destruct (buffer s !! cursor s); [|auto].
  destruct (IH (emit o (with_buffer (delete (cursor s) (buffer s)) s))) as (-> & -> & ->).
  auto.
Qed.

Lemma flush_settled (fuel : nat) (s : sched) :
  Inv s → run_status s = Running → size (buffer s) ≤ fuel → Settled (flush fuel s).
Proof.
  revert s; induction fuel as [|fuel IH]; intros s HI Hrun Hsize; simpl.
  - split; [exact HI|].
    assert (Hempty : buffer s = ∅) by (apply map_size_empty_inv; lia).
    rewrite Hempty. apply lookup_empty.
  - destruct (buffer s !! cursor s) as [o|] eqn:Hcur; [|split; assumption].
    apply IH.
    + now apply flush_step_inv.
    + exact Hrun.
    + simpl. pose proof (size_delete_lt (buffer s) (cursor s) ltac:(eauto)). lia.
Qed.

(** A result that completes ahead of the cursor goes to the buffer. *)
Lemma buffer_settled (s : sched) (i k : nat) (o : option Result) :
  Settled s → run_status s = Running →
  slots s !! i = Some (Completed k o) → k ≠ cursor s →
  (on_failure = FailFast → is_Some o) →
  Settled (with_buffer (<[k := o]> (buffer s)) (with_slots (<[i := Idle]> (slots s)) s)).
Proof.
  intros [[Hslots Hnext Hbound Hnodup Hdisj Hbuf Hcover Hcount Hrend Hff Hstat] Hcur]
         Hrun Hi Hne Hsome.
  pose proof (in_flight_insert _ _ _ Idle Hi) as Hperm. simpl in Hperm.
  assert (Hk : buffer s !! k = None).
  { apply Hdisj. rewrite <- Hperm. now left. }
  rewrite <- Hperm in Hnodup. apply NoDup_cons in Hnodup as [Hnotin Hnodup].
  destruct (Hbound _ _ Hi) as [Hrange Ho].
  split; [|simpl; now rewrite lookup_insert_ne].
  constructor; simpl.
  - now rewrite length_insert.
  - exact Hnext.
  - intros j sl Hj. apply list_lookup_insert_Some in Hj as [(-> & <- & _)|[_ Hj]];
      [exact I|].
    apply (slot_ok_mono s); [reflexivity | simpl; lia | eauto].
  - exact Hnodup.
  - intros k' Hk'. rewrite lookup_insert_ne by (intros ->; contradiction).
    apply Hdisj. rewrite <- Hperm. now right.
  - intros k' o' Hk'. apply lookup_insert_Some in Hk' as [[<- <-]|[_ Hk']]; auto.
  - intros k' Hk'. destruct (Hcover k' Hk') as [Hin|Hin].
    + rewrite <- Hperm in Hin. apply elem_of_cons in Hin as [->|Hin]; [right | now left].
      rewrite lookup_insert_eq. eauto.
    + right. destruct (decide (k = k')) as [->|Hkk];
        [rewrite lookup_insert_eq; eauto | now rewrite lookup_insert_ne].
  - rewrite map_size_insert_None by exact Hk. rewrite Hcount, <- Hperm. simpl. lia.
  - exact Hrend.
  - exact Hff.
  - now rewrite Hrun.
Qed.

Lemma abort_settled (s : sched) (i k : nat) :
  Settled s → slots s !! i = Some (Completed k None) → on_failure = FailFast →
  Settled (with_status (Aborted k) s).
Proof.
  intros [[Hslots Hnext Hbound Hnodup Hdisj Hbuf Hcover Hcount Hrend Hff Hstat] Hcur]
         Hi Hp.
  destruct (Hbound _ _ Hi) as [Hrange Ho].
  split; [|exact Hcur]. constructor; simpl; auto.
  repeat split; auto; try lia.
  apply elem_of_in_flight. exists i, (Completed k None). auto.
Qed.

Lemma handle_settled (s : sched) (i k : nat) (o : option Result) :
  Settled s → run_status s = Running → slots s !! i = Some (Completed k o) →
  Settled (handle i k o s).
Proof.
  intros Hs Hrun Hi. unfold handle.
  assert (Hdeliver : (on_failure = FailFast → is_Some o) →
    Settled (if decide (k = cursor (with_slots (<[i := Idle]> (slots s)) s))
             then flush (size (buffer (with_slots (<[i := Idle]> (slots s)) s)))
                        (emit o (with_slots (<[i := Idle]> (slots s)) s))
             else with_buffer (<[k := o]> (buffer (with_slots (<[i := Idle]> (slots s)) s)))
                              (with_slots (<[i := Idle]> (slots s)) s))).
  { intros Hsome. simpl. destruct (decide (k = cursor s)) as [->|Hne].
    - apply flush_settled; [now apply deliver_inv | exact Hrun | simpl; lia].
    - now apply buffer_settled. }
  destruct o as [r|].
  - apply Hdeliver. eauto.
  - destruct on_failure eqn:Hp.
    + eapply abort_settled; eauto.
    + apply Hdeliver. discriminate.
Qed.

Lemma positions_head (p : slot → bool) (l : list slot) (i : nat) (rest : list nat) :
  positions p l = i :: rest → ∃ sl, l !! i = Some sl ∧ p sl = true.
Proof.
  intros H. apply elem_of_positions. rewrite H. now left.
Qed.

Lemma step_settled (choice : nat) (s : sched) : Settled s → Settled (step choice s).
Proof.
  intros Hs. unfold step.
  destruct (run_status s) eqn:Hrun; try exact Hs.
  destruct (positions is_completed (slots s)) as [|i rest] eqn:Hdone.
  - destruct (frames !! next_frame s) as [f|] eqn:Hf.
    + destruct (positions is_idle (slots s)) as [|i rest] eqn:Hidle.
      * destruct (positions is_submitted (slots s) !! _); [|exact Hs].
        now apply complete_settled.
      * apply positions_head in Hidle as (sl & Hi & Hp).
        destruct sl; try discriminate. now apply submit_settled.
    + assert (Hwait :
        Settled match positions is_submitted (slots s)
                      !! (choice mod length (positions is_submitted (slots s))) with
                | Some i => complete i s
                | None => if size (buffer s) =? 0 then with_status Finished s else s
                end).
      { destruct (positions is_submitted (slots s) !! _) eqn:Hw;
          [now apply complete_settled|].
        destruct (size (buffer s) =? 0) eqn:Hsz; [|exact Hs].
        apply Nat.eqb_eq in Hsz.
        assert (Hnone : positions is_submitted (slots s) = []).
        { destruct (positions is_submitted (slots s)) as [|j w]; [reflexivity|].
          apply lookup_ge_None in Hw. simpl in Hw.
          pose proof (Nat.mod_upper_bound choice (S (length w)) ltac:(lia)). lia. }
        destruct Hs as [[Hslots Hnext Hbound Hnodup Hdisj Hbuf Hcover Hcount Hrend Hff Hstat]
                        Hcur].
        split; [|exact Hcur]. constructor; simpl; auto.
        rewrite length_in_flight, Hnone, Hdone, Hsz in Hcount. simpl in Hcount.
        apply lookup_ge_None in Hf. lia. }
      destruct (positions is_idle (slots s)); exact Hwait.
  - apply positions_head in Hdone as (sl & Hi & Hp).
    rewrite Hi. destruct sl; try discriminate. now apply handle_settled.
Qed.

Lemma exec_settled (oracle : nat → nat) (n : nat) : Settled (exec oracle n).
Proof.
  induction n as [|n IH]; simpl; [apply init_settled | now apply step_settled].
Qed.

(** *** Every run ends *)

(** Actions still to be made: three for a frame not yet submitted, two for
    a submitted request, one for a completed one. *)
Definition work (s : sched) : nat :=
  3 * (length frames - next_frame s)
  + 2 * length (positions is_submitted (slots s))
  + length (positions is_completed (slots s)).

Lemma positions_replicate_idle (p : slot → bool) (n : nat) :
  p Idle = false → positions p (replicate n Idle) = [].
Proof.
  intros Hp. induction n as [|n IH]; simpl; [reflexivity|]. now rewrite Hp, IH.
Qed.

Lemma work_free (s : sched) (i k : nat) (o : option Result) (s' : sched) :
  slots s !! i = Some (Completed k o) →
  slots s' = <[i := Idle]> (slots s) → next_frame s' = next_frame s →
  work s' < work s.
Proof.
  intros Hi Hslots Hnext. unfold work. rewrite Hslots, Hnext.
  pose proof (length_positions_insert is_submitted _ _ _ Idle Hi).
  pose proof (length_positions_insert is_completed _ _ _ Idle Hi).
  simpl in *. lia.
Qed.

Lemma step_progress (choice : nat) (s : sched) :
  Settled s → 0 < N → run_status s = Running →
  run_status (step choice s) ≠ Running ∨ work (step choice s) < work s.
Proof.
  intros Hs HN Hrun. unfold step. rewrite Hrun.
  destruct (positions is_completed (slots s)) as [|i rest] eqn:Hdone.
  - assert (Hwait : ∀ i, positions is_submitted (slots s)
                          !! (choice mod length (positions is_submitted (slots s))) = Some i →
                         work (complete i s) < work s).
    { intros i Hw. apply list_elem_of_lookup_2, elem_of_positions in Hw as (sl & Hi & Hp).
      destruct sl as [|k input|]; try discriminate.
      unfold complete. rewrite Hi. unfold work. simpl.
      pose proof (length_positions_insert is_submitted _ _ _
                    (Completed k (infer input)) Hi).
      pose proof (length_positions_insert is_completed _ _ _
                    (Completed k (infer input)) Hi).
      simpl in *. lia. }
    assert (Hnowait : positions is_submitted (slots s)
                        !! (choice mod length (positions is_submitted (slots s))) = None →
                      positions is_submitted (slots s) = []).
    { intros Hw. destruct (positions is_submitted (slots s)) as [|j w]; [reflexivity|].
      apply lookup_ge_None in Hw. simpl in Hw.
      pose proof (Nat.mod_upper_bound choice (S (length w)) ltac:(lia)). lia. }
    destruct (frames !! next_frame s) as [f|] eqn:Hf.
    + destruct (positions is_idle (slots s)) as [|i rest] eqn:Hidle.
      * destruct (positions is_submitted (slots s) !! _) as [i|] eqn:Hw; [right; auto|].
        exfalso. clear Hw. pose proof (Hnowait eq_refl) as Hw.
        destruct Hs as [[Hslots _ _ _ _ _ _ _ _ _ _] _].
        destruct (lookup_lt_is_Some_2 (slots s) 0 ltac:(lia)) as [sl Hsl].
        pose proof (positions_nil _ _ _ _ Hdone Hsl).
        pose proof (positions_nil _ _ _ _ Hidle Hsl).
        pose proof (positions_nil _ _ _ _ Hw Hsl).
        destruct sl; discriminate.
      * right. apply positions_head in Hidle as (sl & Hi & Hp).
        destruct sl; try discriminate. unfold work. simpl.
        pose proof (length_positions_insert is_submitted _ _ _
                      (Submitted (next_frame s) (prepare f)) Hi).
        pose proof (length_positions_insert is_completed _ _ _
                      (Submitted (next_frame s) (prepare f)) Hi).
        apply lookup_lt_Some in Hf. simpl in *. lia.
    + assert (Hend :
        let s' := match positions is_submitted (slots s)
                        !! (choice mod length (positions is_submitted (slots s))) with
                  | Some i => complete i s
                  | None => if size (buffer s) =? 0 then with_status Finished s else s
                  end in
        run_status s' ≠ Running ∨ work s' < work s).
      { simpl. destruct (positions is_submitted (slots s) !! _) as [i|] eqn:Hw;
          [right; auto|].
        destruct (size (buffer s) =? 0) eqn:Hsz; [left; discriminate|].
        exfalso. apply Nat.eqb_neq in Hsz. clear Hw. pose proof (Hnowait eq_refl) as Hw.
        destruct Hs as [[_ _ _ _ _ _ Hcover Hcount _ _ _] Hcur].
        rewrite length_in_flight, Hw, Hdone in Hcount. simpl in Hcount.
        destruct (Hcover (cursor s)) as [Hin|[? Hin]]; [lia | | congruence].
        assert (Hlen : length (in_flight (slots s)) = 0)
          by (rewrite length_in_flight, Hw, Hdone; reflexivity).
        destruct (in_flight (slots s)); [inversion Hin | discriminate]. }
      destruct (positions is_idle (slots s)); exact Hend.
  - apply positions_head in Hdone as (sl & Hi & Hp).
    rewrite Hi. destruct sl as [| |k o]; try discriminate.
    unfold handle.
    assert (Hfree : work (if decide (k = cursor (with_slots (<[i := Idle]> (slots s)) s))
             then flush (size (buffer (with_slots (<[i := Idle]> (slots s)) s)))
                        (emit o (with_slots (<[i := Idle]> (slots s)) s))
             else with_buffer (<[k := o]> (buffer (with_slots (<[i := Idle]> (slots s)) s)))
                              (with_slots (<[i := Idle]> (slots s)) s)) < work s).
    { destruct (decide _).
      - apply (work_free s i k o); [exact Hi | |].
        + now rewrite (proj1 (proj2 (flush_status _ _))).
        + now rewrite (proj2 (proj2 (flush_status _ _))).
      - now apply (work_free s i k o). }
    destruct o as [r|]; [right; exact Hfree|].
    destruct on_failure; [left; discriminate | right; exact Hfree].
Qed.

Lemma step_ended (choice : nat) (s : sched) :
  run_status s ≠ Running → step choice s = s.
Proof. unfold step. destruct (run_status s); [contradiction | reflexivity..]. Qed.

Lemma exec_work (oracle : nat → nat) (n : nat) :
  0 < N → run_status (exec oracle n) = Running →
  work (exec oracle n) + n ≤ 3 * length frames.
Proof.
  intros HN. induction n as [|n IH]; intros Hrun.
  - simpl. unfold work. simpl.
    rewrite !positions_replicate_idle by reflexivity. simpl. lia.
  - simpl in *.
    destruct (run_status (exec oracle n)) eqn:Hprev.
    + specialize (IH eq_refl).
      destruct (step_progress (oracle n) _ (exec_settled oracle n) HN Hprev);
        [contradiction | lia].
    + rewrite step_ended in Hrun by (rewrite Hprev; discriminate). congruence.
    + rewrite step_ended in Hrun by (rewrite Hprev; discriminate). congruence.
Qed.

Lemma run_ends (oracle : nat → nat) : 0 < N → run_status (run oracle) ≠ Running.
Proof.
  intros HN Hrun. apply exec_work in Hrun; [|exact HN].
  unfold enough_steps in Hrun. lia.
Qed.

(** *** Render calls *)

Lemma render_calls_prefix (s : sched) :
  Inv s → (∀ k, k < cursor s → is_Some (outcome k)) →
  render_calls s = seq 0 (cursor s)
  ∧ ∀ k, k < cursor s → ∃ r, outcome k = Some r ∧ rendered s !! k = Some (k, r).
Proof.
  intros HI. unfold render_calls. rewrite (inv_rendered _ HI). clear HI.
  induction (cursor s) as [|c IH]; intros Hall; [split; [reflexivity | lia]|].
  destruct IH as [IH1 IH2]; [intros k Hk; apply Hall; lia|].
  destruct (Hall c) as [r Hr]; [lia|].
  assert (Hlen : length (omap (λ k, pair k <$> outcome k) (seq 0 c)) = c).
  { rewrite <- (length_fmap fst), IH1. apply length_seq. }
  rewrite seq_S, omap_app, fmap_app. simpl. rewrite Hr. simpl. split.
  - now rewrite IH1.
  - intros k Hk. destruct (decide (k = c)) as [->|Hne].
    + exists r. split; [exact Hr|].
      rewrite lookup_app_r by lia. rewrite Hlen, Nat.sub_diag. reflexivity.
    + destruct (IH2 k) as (r' & Hr' & Hk'); [lia|].
      exists r'. split; [exact Hr'|]. rewrite lookup_app_l by lia. exact Hk'.
Qed.

Lemma StronglySorted_lt_seq (a n : nat) : StronglySorted lt (seq a n).
Proof.
  revert a; induction n as [|n IH]; intros a; simpl; constructor; [apply IH|].
  apply Forall_forall. intros x Hx. apply elem_of_seq in Hx. lia.
Qed.

Lemma outcome_frames (k : nat) :
  (∀ f, f ∈ frames → is_Some (infer (prepare f))) → k < length frames →
  is_Some (outcome k).
Proof.
  intros Hall Hk. unfold outcome.
  destruct (lookup_lt_is_Some_2 _ _ Hk) as [f Hf]. rewrite Hf. simpl.
  apply Hall. eapply list_elem_of_lookup_2, Hf.
Qed.

Lemma exec_after_end (oracle : nat → nat) (n : nat) :
  0 < N → enough_steps ≤ n → exec oracle n = run oracle.
Proof.
  intros HN. induction 1 as [|n Hle IH]; [reflexivity|].
  simpl. rewrite IH. apply step_ended, run_ends, HN.
Qed.

(** C1. With a concurrency bound [N] of at least one slot and an engine
    that fails no request, the run over [M] frames ends having made exactly
    [M] render calls, for the Frame indices 0, 1, ..., M-1 in this order
    (distinct and strictly increasing), each with the engine's result for its
    frame, whatever the order in which the requests complete; at every
    instant of the run the calls made so far are an initial segment of that
    sequence, and after the end no further call is made. *)
Theorem renders_every_frame_in_order (oracle : nat → nat) :
  0 < N → (∀ f, f ∈ frames → is_Some (infer (prepare f))) →
  run_status (run oracle) = Finished
  ∧ render_calls (run oracle) = seq 0 (length frames)
  ∧ length (rendered (run oracle)) = length frames
  ∧ NoDup (render_calls (run oracle))
  ∧ StronglySorted lt (render_calls (run oracle))
  ∧ (∀ k f, frames !! k = Some f →
       ∃ r, infer (prepare f) = Some r ∧ rendered (run oracle) !! k = Some (k, r))
  ∧ (∀ n, ∃ c, c ≤ length frames ∧ render_calls (exec oracle n) = seq 0 c)
  ∧ (∀ n, enough_steps ≤ n → exec oracle n = run oracle).
Proof.
  intros HN Hall.
  assert (Hprefix : ∀ n, cursor (exec oracle n) ≤ length frames
            ∧ render_calls (exec oracle n) = seq 0 (cursor (exec oracle n))
            ∧ ∀ k, k < cursor (exec oracle n) →
                ∃ r, outcome k = Some r ∧ rendered (exec oracle n) !! k = Some (k, r)).
  { intros n. destruct (exec_settled oracle n) as [HI _].
    assert (Hc : cursor (exec oracle n) ≤ length frames).
    { pose proof (inv_count _ HI). pose proof (inv_next _ HI). lia. }
    split; [exact Hc|]. apply render_calls_prefix; [exact HI|].
    intros k Hk. apply outcome_frames; [exact Hall | lia]. }
  assert (Hfin : run_status (run oracle) = Finished).
  { destruct (exec_settled oracle enough_steps) as [HI _].
    pose proof (run_ends oracle HN) as Hend. pose proof (inv_status _ HI) as Hst.
    fold (run oracle) in Hst. destruct (run_status (run oracle)) as [| |k];
      [contradiction | reflexivity |].
    destruct Hst as (_ & Hk & Hfail & _). pose proof (inv_next _ HI).
    destruct (outcome_frames k Hall) as [r Hr]; [fold (run oracle) in *; lia | congruence]. }
  assert (Hcur : cursor (run oracle) = length frames).
  { destruct (exec_settled oracle enough_steps) as [HI _].
    pose proof (inv_status _ HI) as Hst. fold (run oracle) in Hst.
    rewrite Hfin in Hst. apply Hst. }
  destruct (Hprefix enough_steps) as (_ & Hcalls & Hres). fold (run oracle) in Hcalls, Hres.
  rewrite Hcur in Hcalls, Hres.
  split; [exact Hfin|]. split; [exact Hcalls|].
  split; [rewrite <- (length_fmap fst); fold (render_calls (run oracle));
          rewrite Hcalls; apply length_seq|].
  split; [rewrite Hcalls; apply NoDup_seq|].
  split; [rewrite Hcalls; apply StronglySorted_lt_seq|].
  split.
  { intros k f Hf. destruct (Hres k) as (r & Hr & Hk); [eapply lookup_lt_Some, Hf|].
    exists r. split; [|exact Hk]. unfold outcome in Hr. now rewrite Hf in Hr. }
  split.
  { intros n. exists (cursor (exec oracle n)). destruct (Hprefix n) as (? & ? & _). auto. }
  intros n. now apply exec_after_end.
Qed.

(** *** The concurrency bound *)

Lemma handle_next_frame (i k : nat) (o : option Result) (s : sched) :
  next_frame (handle i k o s) = next_frame s.
Proof.
  unfold handle.
  assert (H : next_frame
            (if decide (k = cursor (with_slots (<[i := Idle]> (slots s)) s))
             then flush (size (buffer (with_slots (<[i := Idle]> (slots s)) s)))
                        (emit o (with_slots (<[i := Idle]> (slots s)) s))
             else with_buffer (<[k := o]> (buffer (with_slots (<[i := Idle]> (slots s)) s)))
                              (with_slots (<[i := Idle]> (slots s)) s)) = next_frame s).
  { destruct (decide _); [|reflexivity].
    now rewrite (proj2 (proj2 (flush_status _ _))). }
  destruct o; [exact H|]. destruct on_failure; [reflexivity | exact H].
Qed.

Lemma complete_next_frame (i : nat) (s : sched) :
  next_frame (complete i s) = next_frame s.
Proof.
  unfold complete. destruct (slots s !! i) as [[| |]|]; reflexivity.
Qed.

(** With no idle slot, no frame is submitted. *)
Lemma step_blocked (choice : nat) (s : sched) :
  positions is_idle (slots s) = [] → next_frame (step choice s) = next_frame s.
Proof.
  intros Hidle. unfold step. destruct (run_status s); try reflexivity.
  destruct (positions is_completed (slots s)) as [|i rest].
  - rewrite Hidle.
    assert (H : next_frame
              match positions is_submitted (slots s)
                    !! (choice mod length (positions is_submitted (slots s))) with
              | Some i => complete i s
              | None => s
              end = next_frame s).
    { destruct (_ !! _); [apply complete_next_frame | reflexivity]. }
    destruct (frames !! next_frame s).
    + destruct (_ !! _); [apply complete_next_frame | reflexivity].
    + destruct (_ !! _); [apply complete_next_frame|].
      destruct (size (buffer s) =? 0); reflexivity.
  - destruct (slots s !! i) as [[| |k o]|]; try reflexivity.
    apply handle_next_frame.
Qed.

(** C2. At every instant of a run at most [N] requests are in the
    Submitted state. The frames submitted so far are the completed requests
    plus those still submitted, so Frame [i + N] has been submitted only
    when more than [i] requests have completed; and while no slot is idle
    the scheduler submits nothing. *)
Theorem at_most_N_submitted (oracle : nat → nat) (n : nat) :
  submitted_count (exec oracle n) ≤ N
  ∧ next_frame (exec oracle n)
    = completed_count (exec oracle n) + submitted_count (exec oracle n)
  ∧ (∀ i, i + N < next_frame (exec oracle n) → i < completed_count (exec oracle n))
  ∧ (positions is_idle (slots (exec oracle n)) = [] →
     next_frame (exec oracle (S n)) = next_frame (exec oracle n)).
Proof.
  destruct (exec_settled oracle n) as [HI _].
  assert (Hsub : submitted_count (exec oracle n) ≤ N).
  { unfold submitted_count. rewrite <- (inv_slots _ HI). apply length_positions_le. }
  assert (Hcount : next_frame (exec oracle n)
                   = completed_count (exec oracle n) + submitted_count (exec oracle n)).
  { unfold completed_count, submitted_count.
    rewrite (inv_count _ HI), length_in_flight. lia. }
  split; [exact Hsub|]. split; [exact Hcount|]. split.
  - intros i Hi. lia.
  - intros Hidle. simpl. now apply step_blocked.
Qed.

(** *** Failures under fail-fast *)



End Scheduler.

Lemma elapsed_none (start stop : Q) :
  Qle_bool (stop - start) 0 = true ↔ (stop <= start)%Q.
Proof.
  rewrite Qle_bool_iff. destruct start as [a b], stop as [c d].
  unfold Qle, Qminus, Qplus, Qopp. simpl. rewrite Z.mul_1_r. lia.
Qed.

(** C7. A run over no frames ends at once with no render call, whatever
    the concurrency bound, and the throughput reported for it is 0 frames
    per second, or undefined when no time has elapsed. *)
Theorem empty_run {Frame Tensor Result : Type}
    (prepare : Frame → Tensor) (infer : Tensor → option Result)
    (N : nat) (on_failure : policy) (oracle : nat → nat) (start stop : Q) :
  run_status (run prepare infer N on_failure [] oracle) = Finished
  ∧ rendered (run prepare infer N on_failure [] oracle) = []
  ∧ match throughput (length (rendered (run prepare infer N on_failure [] oracle)))
                     start stop with
    | Fps q => (q == 0)%Q ∧ (start < stop)%Q
    | Undefined => (stop <= start)%Q
    end.
Proof.
  assert (Hrun : run prepare infer N on_failure [] oracle
                 = with_status Finished (@init Tensor Result N)).
  { unfold run, enough_steps. simpl. unfold step. simpl.
    rewrite !positions_replicate_idle by reflexivity. simpl.
    now rewrite map_size_empty. }
  rewrite Hrun. simpl. split; [reflexivity|]. split; [reflexivity|].
  unfold throughput. destruct (Qle_bool (stop - start) 0) eqn:E.
  - now apply elapsed_none.
  - split; [unfold Qdiv; apply Qmult_0_l|].
    apply Qnot_le_lt. intros Hle. apply elapsed_none in Hle. congruence.
Qed.

(** An engine that fails the request of one Frame. *)
Definition fails_on (bad : nat) (input : nat) : option nat :=
  if decide (input = bad) then None else Some (10 * input).

Definition never_fails (input : nat) : option nat := Some (10 * input).

(** One slot, five frames: no buffering is needed. *)
Example sequential_run :
  rendered (run id never_fails 1 FailFast (seq 0 5) (λ _, 0))
  = [(0, 0); (1, 10); (2, 20); (3, 30); (4, 40)].
Proof. vm_compute. reflexivity. Qed.

(** Three slots, ten frames, the engine always finishing the youngest
    request first. *)
Example reversed_completion :
  render_calls (run id never_fails 3 FailFast (seq 0 10) (λ _, 2)) = seq 0 10.
Proof. vm_compute. reflexivity. Qed.

(** Frame 4 of 10 fails, one slot. *)
Example fail_fast_sequential :
  run_status (run id (fails_on 4) 1 FailFast (seq 0 10) (λ _, 0)) = Aborted 4
  ∧ render_calls (run id (fails_on 4) 1 FailFast (seq 0 10) (λ _, 0)) = [0; 1; 2; 3].
Proof. vm_compute. split; reflexivity. Qed.

Example skip_and_continue_run :
  run_status (run id (fails_on 4) 3 SkipAndContinue (seq 0 10) (λ n, n)) = Finished
  ∧ render_calls (run id (fails_on 4) 3 SkipAndContinue (seq 0 10) (λ n, n))
    = [0; 1; 2; 3; 5; 6; 7; 8; 9]
  ∧ dropped (run id (fails_on 4) 3 SkipAndContinue (seq 0 10) (λ n, n)) = [4].
Proof. vm_compute. repeat split; reflexivity. Qed.

Lemma renders_every_frame_in_order_witness :
  0 < 3
  ∧ (∀ f, f ∈ seq 0 10 → is_Some (never_fails (id f)))
  ∧ run_status (run id never_fails 3 FailFast (seq 0 10) (λ n, 7 * n + 1)) = Finished
  ∧ render_calls (run id never_fails 3 FailFast (seq 0 10) (λ n, 7 * n + 1)) = seq 0 10.
Proof.
  assert (H3 : 0 < 3) by lia.
  assert (Hok : ∀ f, f ∈ seq 0 10 → is_Some (never_fails (id f))) by (intros f _; eauto).
  split; [exact H3|]. split; [exact Hok|].
  destruct (renders_every_frame_in_order id never_fails 3 FailFast (seq 0 10)
              (λ n, 7 * n + 1) H3 Hok) as (Hfin & Hcalls & _).
  split; [exact Hfin | exact Hcalls].
Defined.



End Pipeline.
